(** * sphinx_gherkindoc: the flat namer and the tree contraction loop

    A shallow embedding of [sphinx_gherkindoc/utils.py] ([verbose],
    [make_flat_name], [SphinxWriter.write_to_file]) and of
    [sphinx_gherkindoc/cli.py] ([process_args]), with the properties the
    specification states about them.

    Python [str] values are modelled as [string] (the UTF-8 bytes of the
    text; no byte of a multi-byte UTF-8 sequence equals the byte of ['.'],
    so "contains the separator" means the same on bytes and on code
    points).  Python lists are [list]; the [set] of retained directories is
    a [gset string]. *)

From Stdlib Require Import Ascii String.
From stdpp Require Import gmap strings list.
From Equations Require Import Equations.
From Equations.Prop Require Import Logic.

(* ===================================================================== *)
(** ** utils.py *)
(* ===================================================================== *)

Module Utils.

(** [sep.join(ls)] of Python is [String.concat sep ls]: nothing for the
    empty list, the element itself for a singleton, and otherwise the
    elements with [sep] between each two. *)
Definition join (sep : string) (ls : list string) : string :=
  String.concat sep ls.

(** [make_flat_name(path_list, filename_root=None, is_dir=False, ext=".rst")].
    The keyword defaults are passed explicitly: [None], [false] and
    [Some ".rst"]. *)
Definition make_flat_name (path_list : list string)
  (filename_root : option string) (is_dir : bool) (ext : option string)
  : string :=
  let path_list :=
    match filename_root with
    | Some root => path_list ++ [root]
    | None => path_list
    end in
  let result := join "." path_list in
  match ext with
  | None => result
  | Some ext => (result +:+ (if is_dir then "-toc" else "-file")) +:+ ext
  end.

(** The default value of the [ext] keyword. *)
Definition default_ext : option string := Some ".rst".

(** The module-level flags [VERBOSE] and [DRY_RUN].  [set_verbose] and
    [set_dry_run] assign them before a run starts; during a run they are
    only read, so they are passed along as a value. *)
Record Globals := { VERBOSE : bool; DRY_RUN : bool }.

(** What a run does to the outside world, in the order it happens:
    a line on standard output, a file written through
    [FileAvoidWrite(filename)], a file copied by [shutil.copy]. *)
Inductive event :=
| Print (message : string)
| FileWrite (filename : string) (content : string)
| FileCopy (src : string) (dst : string).

(** [verbose(message)]: prints only if [VERBOSE], with a prefix under
    [DRY_RUN]. *)
Definition verbose (g : Globals) (message : string) : list event :=
  if negb (VERBOSE g) then []
  else
    let message := if DRY_RUN g then "dry-run: " +:+ message else message in
    [Print message].

(** A [SphinxWriter] object: the lines added so far. *)
Record SphinxWriter := { _output : list string }.

(** [SphinxWriter.write_to_file(filename)]. *)
Definition write_to_file (g : Globals) (self : SphinxWriter)
  (filename : string) : list event :=
  verbose g ("Writing " +:+ filename)
  ++ [FileWrite filename (join EmptyString (_output self))].

(** The input constraint of the flat namer: a segment holds no ['.']. *)
Fixpoint has_sep (s : string) : bool :=
  match s with
  | EmptyString => false
  | String c s' => Ascii.eqb c "." || has_sep s'
  end.

Definition segments_ok (path_list : list string) : bool :=
  negb (bool_decide (path_list = [])) && forallb (fun s => negb (has_sep s)) path_list.

(** The file naming convention in the words of the specification:
    [<segment>.<segment>....<discriminator><extension>].  The first segment,
    then every further segment behind a ['.'], then the discriminator, then
    the extension. *)
Definition spec_discriminator (is_container : bool) : string :=
  if is_container then "-toc" else "-file".

Fixpoint spec_dotted (more : list string) : string :=
  match more with
  | [] => EmptyString
  | s :: more' => String "." (s +:+ spec_dotted more')
  end.

Definition spec_flat_name (segments : list string) (is_container : bool)
  (extension : string) : string :=
  match segments with
  | [] => EmptyString
  | s :: more =>
      s +:+ spec_dotted more +:+ spec_discriminator is_container +:+ extension
  end.

(** *** Strings as lists of characters *)

(** stdpp keeps [String.append] from unfolding under [simpl]; these are its
    two defining equations. *)
Lemma append_Empty (t : string) : EmptyString +:+ t = t.
Proof. reflexivity. Qed.

Lemma append_String (c : ascii) (s t : string) :
  String c s +:+ t = String c (s +:+ t).
Proof. reflexivity. Qed.

Ltac string_ind s :=
  induction s as [|? s ?IH];
  rewrite ?append_Empty, ?append_String; simpl; [done | congruence].

Lemma list_ascii_app (s t : string) :
  list_ascii_of_string (s +:+ t)
  = list_ascii_of_string s ++ list_ascii_of_string t.
Proof. string_ind s. Qed.

Lemma list_ascii_inj (s t : string) :
  list_ascii_of_string s = list_ascii_of_string t → s = t.
Proof.
  intros H. rewrite <- (string_of_list_ascii_of_string s).
  rewrite <- (string_of_list_ascii_of_string t). by rewrite H.
Qed.

Lemma append_inv_tail (s t e : string) : s +:+ e = t +:+ e → s = t.
Proof.
  intros H. apply list_ascii_inj.
  apply (f_equal list_ascii_of_string) in H.
  rewrite !list_ascii_app in H. by apply app_inv_tail in H.
Qed.

Lemma append_assoc (s t u : string) : (s +:+ t) +:+ u = s +:+ (t +:+ u).
Proof. string_ind s. Qed.

Lemma append_nil_r (s : string) : s +:+ EmptyString = s.
Proof. string_ind s. Qed.

(** The two discriminators differ in their last character. *)
Lemma discriminators_differ (s t : string) : s +:+ "-toc" ≠ t +:+ "-file".
Proof.
  intros H. apply (f_equal list_ascii_of_string) in H.
  rewrite !list_ascii_app in H.
  apply (f_equal (@rev ascii)) in H. rewrite !rev_app_distr in H.
  simpl in H. discriminate H.
Qed.

(** *** Splitting a joined name at its first separator *)

Lemma has_sep_app (s t : string) : has_sep (s +:+ t) = has_sep s || has_sep t.
Proof.
  induction s as [|c s IH]; rewrite ?append_Empty, ?append_String; simpl;
    [done |].
  rewrite IH. by rewrite orb_assoc.
Qed.

Lemma split_at_sep (x y r1 r2 : string) :
  has_sep x = false → has_sep y = false →
  x +:+ String "." r1 = y +:+ String "." r2 → x = y ∧ r1 = r2.
Proof.
  revert y. induction x as [|c x IH]; intros [|d y] Hx Hy H;
    rewrite ?append_Empty, ?append_String in H; simpl in *.
  - by inversion H.
  - inversion H; subst. by rewrite Ascii.eqb_refl in Hy.
  - inversion H; subst. by rewrite Ascii.eqb_refl in Hx.
  - inversion H; subst.
    apply orb_false_iff in Hx as [_ Hx]. apply orb_false_iff in Hy as [_ Hy].
    destruct (IH y Hx Hy) as [-> ->]; done.
Qed.

Lemma no_sep_not_split (x y r : string) :
  has_sep x = false → x ≠ y +:+ String "." r.
Proof.
  intros Hx ->. rewrite has_sep_app in Hx. simpl in Hx.
  by rewrite orb_true_r in Hx.
Qed.

Lemma join_cons (x y : string) (ys : list string) :
  join "." (x :: y :: ys) = x +:+ String "." (join "." (y :: ys)).
Proof. reflexivity. Qed.

(** Joining with a separator that no segment holds loses nothing. *)
Lemma join_inj (p1 p2 : list string) :
  p1 ≠ [] → p2 ≠ [] →
  forallb (fun s => negb (has_sep s)) p1 = true →
  forallb (fun s => negb (has_sep s)) p2 = true →
  join "." p1 = join "." p2 → p1 = p2.
Proof.
  revert p2. induction p1 as [|x xs IH]; intros [|y ys] N1 N2 H1 H2 H; try done.
  simpl in H1, H2.
  apply andb_true_iff in H1 as [Hx H1]. apply andb_true_iff in H2 as [Hy H2].
  apply negb_true_iff in Hx. apply negb_true_iff in Hy.
  destruct xs as [|x' xs], ys as [|y' ys].
  - simpl in H. by subst.
  - rewrite join_cons in H. change (join "." [x]) with x in H.
    by apply no_sep_not_split in H.
  - rewrite join_cons in H. change (join "." [y]) with y in H.
    symmetry in H. by apply no_sep_not_split in H.
  - rewrite !join_cons in H.
    apply split_at_sep in H as [-> H]; [| done | done].
    f_equal. by apply IH.
Qed.

End Utils.

(* ===================================================================== *)
(** ** cli.py *)
(* ===================================================================== *)

Module Cli.
Import Utils.

(** One entry of the list [scan_tree] returns: the tuple
    [(a_dir, a_dir_list, subdirs, files)]. *)
Record WorkUnit := {
  a_dir : string;
  a_dir_list : list string;
  subdirs : list string;
  files : list string
}.

(** The parsed command line, as [process_args] reads it. *)
Record Args := {
  gherkin_path : string;
  private : bool;
  exclude_patterns : list string;
  maxtocdepth : Z;
  output_path : string;
  toc_name : string;
  step_glossary_name : option string;
  doc_project : string;
  dry_run : bool
}.

(** What [process_args] calls and this development does not define: the
    path functions of [os.path], and the functions imported from [.files],
    [.glossary] and [.writer].  [os_path_join a p] is [os.path.join] applied
    to [a] and then the elements of [p].
    Each stands for the result of the call at the moment the run makes it. *)
Class Collaborators := {
  os_path_join : string → list string → string;
  os_path_abspath : string → string;
  os_path_dirname : string → string;
  scan_tree : string → bool → list string → list WorkUnit;
  is_feature_file : string → bool;
  is_rst_file : string → bool;
  toctree : list string → list string → list string → Z → string → SphinxWriter;
  feature_to_rst : string → string → SphinxWriter;
  make_steps_glossary : string → option SphinxWriter
}.

(** Truth value of a Python list and of an optional string. *)
Definition list_truthy {A} (l : list A) : bool :=
  match l with [] => false | _ :: _ => true end.

Definition name_truthy (name : option string) : bool :=
  match name with
  | None => false
  | Some EmptyString => false
  | Some (String _ _) => true
  end.

(** [l.pop()]: the last element and the list without it; [None] stands for
    the empty list, on which the loop is not entered. *)
Definition pop {A} (l : list A) : option (A * list A) :=
  match rev l with
  | [] => None
  | x :: r => Some (x, rev r)
  end.

(** The variables of the loop: the list being popped, the set of retained
    directories, and the effects so far. *)
Record state := {
  work_to_do : list WorkUnit;
  non_empty_dirs : gset string;
  out : list event
}.

(** A file or a copy on disk, as opposed to a line on standard output. *)
Definition persisted (e : event) : bool :=
  match e with
  | Print _ => false
  | FileWrite _ _ => true
  | FileCopy _ _ => true
  end.

Definition artifacts (evs : list event) : list event :=
  List.filter persisted evs.

(** The double quote character of the two format strings. *)
Definition dquote : string := String (ascii_of_nat 34) EmptyString.

Section process_args.
Context {C : Collaborators} (G : Globals) (args : Args).

Definition root_path : string :=
  os_path_dirname (os_path_abspath (gherkin_path args)).

Definition top_level_toc_filename : string :=
  os_path_join (output_path args) [toc_name args] +:+ ".rst".

(** Lines 36-40: the subdirectories that are already in [non_empty_dirs],
    in their order. *)
Definition retained_subdirs (a_dir : string) (subdirs : list string)
  (non_empty_dirs : gset string) : list string :=
  fold_left
    (fun new_subdirs subdir =>
       let subdir_path := os_path_join a_dir [subdir] in
       if bool_decide (subdir_path ∈ non_empty_dirs)
       then new_subdirs ++ [subdir]
       else new_subdirs)
    subdirs [].

(** Line 64: [os.path.join] applied to the elements of
    [a_file_list = a_dir_list + [a_file]]. *)
Definition source_name_of (a_dir_list : list string) (a_file : string)
  : string :=
  match a_dir_list with
  | [] => os_path_join a_file []
  | d :: ds => os_path_join d (ds ++ [a_file])
  end.

(** Lines 63-78: the body of [for a_file in files]. *)
Definition process_file (a_dir_list : list string) (a_file : string)
  : list event :=
  let a_file_list := a_dir_list ++ [a_file] in
  let source_name := source_name_of a_dir_list a_file in
  let source_path := os_path_join root_path [source_name] in
  if is_feature_file a_file then
    let dest_name :=
      os_path_join (output_path args)
        [make_flat_name a_file_list None false default_ext] in
    let feature_rst_file := feature_to_rst source_path root_path in
    verbose G ("converting " +:+ dquote +:+ source_name +:+ dquote
               +:+ " to " +:+ dquote +:+ dest_name +:+ dquote)
    ++ write_to_file G feature_rst_file dest_name
  else if negb (is_rst_file a_file) then
    let dest_name :=
      os_path_join (output_path args)
        [make_flat_name a_file_list None false None] in
    verbose G ("copying " +:+ dquote +:+ source_name +:+ dquote
               +:+ " to " +:+ dquote +:+ dest_name +:+ dquote)
    ++ [FileCopy source_path dest_name]
  else [].

(** Lines 62-78: [for a_file in files: ...]. *)
Definition process_files (a_dir_list : list string) (files : list string)
  : list event :=
  fold_left (fun evs a_file => evs ++ process_file a_dir_list a_file)
    files [].

(** Lines 36-78: one pass through the loop body, for the unit [u] just
    popped; [st] holds what is left in [work_to_do] after the pop. *)
Definition process_unit (u : WorkUnit) (st : state) : state :=
  let new_subdirs := retained_subdirs (a_dir u) (subdirs u) (non_empty_dirs st) in
  if negb (list_truthy (files u) || list_truthy new_subdirs) then st
  else
    let non_empty_dirs' := {[a_dir u]} ∪ non_empty_dirs st in
    if dry_run args then
      {| work_to_do := work_to_do st;
         non_empty_dirs := non_empty_dirs';
         out := out st |}
    else
      let toc_file :=
        toctree (a_dir_list u) new_subdirs (files u) (maxtocdepth args)
          root_path in
      let toc_filename :=
        if negb (list_truthy (work_to_do st)) then top_level_toc_filename
        else os_path_join (output_path args)
               [make_flat_name (a_dir_list u) None true default_ext] in
      {| work_to_do := work_to_do st;
         non_empty_dirs := non_empty_dirs';
         out := out st ++ write_to_file G toc_file toc_filename
                ++ process_files (a_dir_list u) (files u) |}.

(** Lines 34-35: the loop test and the pop.  [None] when [work_to_do] is
    empty; otherwise the unit popped and the state after the body. *)
Definition loop_body (st : state) : option (WorkUnit * state) :=
  match pop (work_to_do st) with
  | None => None
  | Some (u, rest) =>
      Some (u, process_unit u {| work_to_do := rest;
                                 non_empty_dirs := non_empty_dirs st;
                                 out := out st |})
  end.

Lemma pop_length {A} (l : list A) (x : A) (rest : list A) :
  pop l = Some (x, rest) → length rest < length l.
Proof.
  unfold pop. intros Hpop. rewrite <- (length_rev l).
  destruct (rev l) as [|y r]; [done |].
  injection Hpop as <- <-. rewrite length_rev. simpl. lia.
Defined.

Lemma process_unit_work_to_do (u : WorkUnit) (st : state) :
  work_to_do (process_unit u st) = work_to_do st.
Proof.
  unfold process_unit.
  destruct (negb _); [done |]. by destruct (dry_run args).
Defined.

Lemma loop_body_length (st st' : state) (u : WorkUnit) :
  loop_body st = Some (u, st') →
  length (work_to_do st') < length (work_to_do st).
Proof.
  unfold loop_body. intros Hbody.
  destruct (pop (work_to_do st)) as [[x rest]|] eqn:Hpop; [| done].
  injection Hbody as <- <-. rewrite process_unit_work_to_do. simpl.
  by apply pop_length in Hpop.
Defined.

(** Lines 34-78: [while work_to_do: ...].  Returns the state at the exit of
    the loop and, as a record of the run, the units in the order in which
    the iterations popped them. *)
Equations? while_loop (st : state) : list WorkUnit * state
  by wf (length (work_to_do st)) lt :=
  while_loop st with inspect (loop_body st) := {
    | exist _ None _ => ([], st)
    | exist _ (Some (u, st')) Hbody =>
        let r := while_loop st' in (u :: r.1, r.2) }.
Proof. by apply loop_body_length in Hbody. Defined.

(** The state after the first [k] iterations of the loop (after all of
    them, if the loop has fewer). *)
Fixpoint iterate (k : nat) (st : state) : state :=
  match k with
  | 0 => st
  | S k' =>
      match loop_body st with
      | None => st
      | Some (_, st') => iterate k' st'
      end
  end.

(** Line 32 and the list returned by [scan_tree]: the state in which the
    loop starts. *)
Definition initial (work : list WorkUnit) : state :=
  {| work_to_do := work; non_empty_dirs := ∅; out := [] |}.

(** Lines 80-95: the glossary, after the loop. *)
Definition glossary_pass : list event :=
  if name_truthy (step_glossary_name args) then
    let name := default EmptyString (step_glossary_name args) in
    let glossary_filename :=
      os_path_join (output_path args) [name +:+ ".rst"] in
    let glossary := make_steps_glossary (doc_project args) in
    if dry_run args then verbose G "No glossary generated"
    else
      match glossary with
      | None =>
          [Print "No steps to include in the glossary: no glossary generated"]
      | Some glossary =>
          verbose G ("Writing sphinx glossary: " +:+ glossary_filename)
          ++ write_to_file G glossary glossary_filename
      end
  else [].

(** What a run leaves behind: the units in the order they were popped, the
    final [non_empty_dirs], and the effects in order. *)
Record outcome := {
  visited : list WorkUnit;
  retained : gset string;
  effects : list event
}.

(** Lines 23-95: [process_args] from the list that [scan_tree] returned. *)
Definition process_work (work : list WorkUnit) : outcome :=
  let r := while_loop (initial work) in
  {| visited := r.1;
     retained := non_empty_dirs r.2;
     effects := out r.2 ++ glossary_pass |}.

(** [process_args(args)]. *)
Definition process_args : outcome :=
  process_work
    (scan_tree (gherkin_path args) (private args) (exclude_patterns args)).

(** **** The loop, one iteration at a time *)

Lemma while_loop_step (st : state) :
  while_loop st
  = match loop_body st with
    | None => ([], st)
    | Some (u, st') => (u :: (while_loop st').1, (while_loop st').2)
    end.
Proof.
  simp while_loop.
  destruct (inspect (loop_body st)) as [[[u st']|] Heq];
    simpl; by rewrite Heq.
Qed.

Lemma pop_nil {A} (l : list A) : rev l = [] → pop l = None.
Proof. unfold pop. by intros ->. Qed.

Lemma pop_cons {A} (l : list A) (x : A) (r : list A) :
  rev l = x :: r → pop l = Some (x, rev r).
Proof. unfold pop. by intros ->. Qed.

Lemma loop_body_nil (st : state) :
  rev (work_to_do st) = [] → loop_body st = None.
Proof. intros Hrev. unfold loop_body. by rewrite (pop_nil _ Hrev). Qed.

Lemma loop_body_cons (st : state) (x : WorkUnit) (r : list WorkUnit) :
  rev (work_to_do st) = x :: r →
  loop_body st
  = Some (x, process_unit x {| work_to_do := rev r;
                               non_empty_dirs := non_empty_dirs st;
                               out := out st |}).
Proof. intros Hrev. unfold loop_body. by rewrite (pop_cons _ _ _ Hrev). Qed.

(** What is left to do after [k] iterations: the list without its last [k]
    elements. *)
Lemma iterate_work_to_do (k : nat) (st : state) :
  rev (work_to_do (iterate k st)) = drop k (rev (work_to_do st)).
Proof.
  revert st. induction k as [|k IH]; intros st; [done |].
  simpl. destruct (rev (work_to_do st)) as [|x r] eqn:Hrev.
  - by rewrite (loop_body_nil _ Hrev).
  - rewrite (loop_body_cons _ _ _ Hrev), IH, process_unit_work_to_do.
    simpl. by rewrite rev_involutive.
Qed.

(** One more iteration, seen from the end. *)
Lemma iterate_succ (k : nat) (st : state) :
  iterate (S k) st
  = match loop_body (iterate k st) with
    | None => iterate k st
    | Some (_, st') => st'
    end.
Proof.
  revert st. induction k as [|k IH]; intros st.
  - simpl. by destruct (loop_body st) as [[u st']|].
  - change (iterate (S (S k)) st)
      with (match loop_body st with
            | None => st
            | Some (_, st') => iterate (S k) st'
            end).
    destruct (loop_body st) as [[u st']|] eqn:Hbody.
    + rewrite IH. simpl. by rewrite Hbody.
    + simpl. by rewrite Hbody, Hbody.
Qed.

(** The loop runs as many iterations as the list has elements, and pops
    them from the last to the first. *)
Lemma while_loop_iterate (st : state) :
  while_loop st
  = (rev (work_to_do st), iterate (length (work_to_do st)) st).
Proof.
  remember (length (work_to_do st)) as n eqn:Hn.
  revert st Hn. induction n as [|n IH]; intros st Hn;
    rewrite while_loop_step;
    destruct (rev (work_to_do st)) as [|x r] eqn:Hrev.
  - by rewrite (loop_body_nil _ Hrev).
  - apply (f_equal length) in Hrev. rewrite length_rev in Hrev.
    simpl in Hrev. lia.
  - apply (f_equal length) in Hrev. rewrite length_rev in Hrev.
    simpl in Hrev. lia.
  - simpl. rewrite (loop_body_cons _ _ _ Hrev).
    set (st' := process_unit x _).
    assert (Hwork : work_to_do st' = rev r)
      by (unfold st'; by rewrite process_unit_work_to_do).
    assert (Hlen : n = length (work_to_do st')).
    { rewrite Hwork, length_rev.
      apply (f_equal length) in Hrev. rewrite length_rev in Hrev.
      simpl in Hrev. lia. }
    rewrite (IH st' Hlen). simpl. by rewrite Hwork, rev_involutive.
Qed.

(** **** The loops over subdirectories and files as list functions *)

Lemma retained_subdirs_filter (a_dir : string) (subdirs : list string)
  (non_empty_dirs : gset string) :
  retained_subdirs a_dir subdirs non_empty_dirs
  = filter (λ subdir, os_path_join a_dir [subdir] ∈ non_empty_dirs) subdirs.
Proof.
  unfold retained_subdirs.
  set (f := λ new_subdirs subdir, if bool_decide _ then _ else _).
  enough (Hacc : ∀ acc, fold_left f subdirs acc
    = acc ++ filter (λ subdir, os_path_join a_dir [subdir] ∈ non_empty_dirs)
               subdirs) by apply (Hacc []).
  induction subdirs as [|s subdirs IH]; intros acc; simpl.
  - by rewrite app_nil_r.
  - rewrite IH. unfold f. rewrite filter_cons.
    case_bool_decide; case_decide; try done.
    by rewrite <- app_assoc.
Qed.

Lemma process_files_flat_map (a_dir_list : list string) (files : list string) :
  process_files a_dir_list files
  = flat_map (process_file a_dir_list) files.
Proof.
  unfold process_files.
  enough (Hacc : ∀ acc,
    fold_left (λ evs a_file, evs ++ process_file a_dir_list a_file) files acc
    = acc ++ flat_map (process_file a_dir_list) files) by apply (Hacc []).
  induction files as [|f files IH]; intros acc; simpl.
  - by rewrite app_nil_r.
  - by rewrite IH, <- app_assoc.
Qed.

(** **** The retained set, apart from the effects *)

(** Whether the body keeps a unit: it has a file, or a subdirectory that is
    in the set already. *)
Definition keeps (u : WorkUnit) (ne : gset string) : bool :=
  list_truthy (files u)
  || list_truthy (retained_subdirs (a_dir u) (subdirs u) ne).

Definition mark (ne : gset string) (u : WorkUnit) : gset string :=
  if keeps u ne then {[a_dir u]} ∪ ne else ne.

Lemma process_unit_non_empty_dirs (u : WorkUnit) (st : state) :
  non_empty_dirs (process_unit u st) = mark (non_empty_dirs st) u.
Proof.
  unfold process_unit, mark, keeps.
  destruct (list_truthy (files u) || _); simpl; [| done].
  by destruct (dry_run args).
Qed.

Lemma iterate_non_empty_dirs (k : nat) (st : state) :
  non_empty_dirs (iterate k st)
  = fold_left mark (take k (rev (work_to_do st))) (non_empty_dirs st).
Proof.
  revert st. induction k as [|k IH]; intros st; [done |].
  simpl. destruct (rev (work_to_do st)) as [|x r] eqn:Hrev.
  - by rewrite (loop_body_nil _ Hrev).
  - rewrite (loop_body_cons _ _ _ Hrev), IH, process_unit_work_to_do,
      process_unit_non_empty_dirs.
    simpl. by rewrite rev_involutive.
Qed.

Lemma keeps_iff (u : WorkUnit) (ne : gset string) :
  keeps u ne = true
  ↔ files u ≠ []
    ∨ ∃ subdir, subdir ∈ subdirs u ∧ os_path_join (a_dir u) [subdir] ∈ ne.
Proof.
  unfold keeps. rewrite orb_true_iff, retained_subdirs_filter. split.
  - intros [Hf | Hs].
    + left. by destruct (files u).
    + right. destruct (filter _ _) as [|s l] eqn:Hfil; [done |].
      assert (Hs' : s ∈ filter
                (λ subdir, os_path_join (a_dir u) [subdir] ∈ ne) (subdirs u))
        by (rewrite Hfil; apply list_elem_of_here).
      apply list_elem_of_filter in Hs' as [? ?]. by exists s.
  - intros [Hf | (s & Hin & Hne)].
    + left. by destruct (files u).
    + right.
      assert (Hs : s ∈ filter (λ subdir, os_path_join (a_dir u) [subdir] ∈ ne)
                         (subdirs u)) by by apply list_elem_of_filter.
      destruct (filter _ _); [by apply elem_of_nil in Hs | done].
Qed.

Lemma mark_subseteq (ne : gset string) (u : WorkUnit) : ne ⊆ mark ne u.
Proof. unfold mark. destruct (keeps u ne); set_solver. Qed.

Lemma elem_of_mark (d : string) (ne : gset string) (u : WorkUnit) :
  d ∈ mark ne u ↔ (keeps u ne = true ∧ d = a_dir u) ∨ d ∈ ne.
Proof.
  unfold mark. destruct (keeps u ne).
  - rewrite elem_of_union, elem_of_singleton. split.
    + intros [-> | Hd]; [by left | by right].
    + intros [[_ ->] | Hd]; [by left | by right].
  - split; [by right |]. intros [[Hk _] | Hd]; [discriminate Hk | done].
Qed.

End process_args.

(** *** A concrete environment, for running the model on examples *)

(** [posixpath.join]: a component that starts with [/] replaces what came
    before; otherwise it is appended, behind a [/] unless the path so far is
    empty or ends with one. *)
Definition starts_with_slash (s : string) : bool :=
  match s with
  | String c _ => Ascii.eqb c "/"
  | EmptyString => false
  end.

Fixpoint ends_with_slash (s : string) : bool :=
  match s with
  | EmptyString => false
  | String c EmptyString => Ascii.eqb c "/"
  | String _ s' => ends_with_slash s'
  end.

Definition posix_join (a : string) (p : list string) : string :=
  fold_left
    (fun path b =>
       if starts_with_slash b then b
       else if bool_decide (path = EmptyString) || ends_with_slash path
            then path +:+ b
            else path +:+ "/" +:+ b)
    p a.

Fixpoint has_suffix_from (suffix s : string) (n : nat) : bool :=
  match n with
  | 0 => false
  | S n' =>
      String.eqb s suffix
      || match s with
         | EmptyString => false
         | String _ s' => has_suffix_from suffix s' n'
         end
  end.

Definition ends_with (suffix s : string) : bool :=
  has_suffix_from suffix s (S (String.length s)).

(** An environment that joins paths as POSIX does, tells the kind of a file
    by its suffix, and builds one-line documents. *)
Definition example_env : Collaborators := {|
  os_path_join := posix_join;
  os_path_abspath := fun p => p;
  os_path_dirname := fun _ => "/src";
  scan_tree := fun _ _ _ => [];
  is_feature_file := ends_with ".feature";
  is_rst_file := ends_with ".rst";
  toctree := fun a_dir_list new_subdirs files _ _ =>
    {| _output := "toc of " :: join "/" a_dir_list :: ":" :: new_subdirs ++ files |};
  feature_to_rst := fun source_path _ =>
    {| _output := ["feature "; source_path] |};
  make_steps_glossary := fun _ => None
|}.

Definition example_args : Args := {|
  gherkin_path := "/src/root";
  private := false;
  exclude_patterns := [];
  maxtocdepth := 4;
  output_path := "/out";
  toc_name := "gherkin";
  step_glossary_name := None;
  doc_project := "root";
  dry_run := false
|}.

Definition quiet : Globals := {| VERBOSE := false; DRY_RUN := false |}.

(** The tree of the specification's end-to-end scenario:
    [root/A/feature1.feature], [root/B/] (empty), [root/readme.rst]. *)
Definition example_work : list WorkUnit := [
  {| a_dir := "/src/root"; a_dir_list := ["root"];
     subdirs := ["A"; "B"]; files := ["readme.rst"] |};
  {| a_dir := "/src/root/A"; a_dir_list := ["root"; "A"];
     subdirs := []; files := ["feature1.feature"] |};
  {| a_dir := "/src/root/B"; a_dir_list := ["root"; "B"];
     subdirs := []; files := [] |}
].

End Cli.
(* ===================================================================== *)
(** ** Properties of the flat namer *)
(* ===================================================================== *)

Module FlatNamer.
Import Utils.

(** Collision freedom for one choice of the [ext] argument: two distinct
    [(path_segments, discriminator)] inputs that meet the input constraint
    get distinct names. *)
Definition collision_free (ext : option string) : Prop :=
  ∀ (p1 p2 : list string) (d1 d2 : bool),
    segments_ok p1 = true → segments_ok p2 = true →
    (p1, d1) ≠ (p2, d2) →
    make_flat_name p1 None d1 ext ≠ make_flat_name p2 None d2 ext.

Lemma segments_ok_inv (p : list string) :
  segments_ok p = true →
  p ≠ [] ∧ forallb (fun s => negb (has_sep s)) p = true.
Proof.
  unfold segments_ok. intros [H1 H2]%andb_true_iff. split; [| done].
  apply negb_true_iff in H1. by apply bool_decide_eq_false in H1.
Qed.

(** C1 (as stated, refuted): with [ext = None] the discriminator is not part
    of the name, so the directory [["a"]] and the file [["a"]] get the same
    flat name ["a"]; hence the namer is not collision free for every choice
    of the extension argument. *)
Lemma make_flat_name_collides_without_ext :
  segments_ok ["a"] = true
  ∧ (["a"], true) ≠ (["a"], false)
  ∧ make_flat_name ["a"] None true None = make_flat_name ["a"] None false None
  ∧ ¬ (∀ ext : option string, collision_free ext).
Proof.
  split; [reflexivity |]. split; [intros [=] |]. split; [reflexivity |].
  intros H. apply (H None ["a"] ["a"] true false); try reflexivity.
  intros [=].
Qed.

(** C1 (amended): for two inputs whose segment lists are non-empty and
    hold no ['.'].  For every extension that is given (not [None]), two
    distinct [(path_segments, discriminator)] inputs get distinct flat
    names.  Without an extension ([ext = None]) the two names are equal
    exactly when the two paths are equal: distinct paths still get distinct
    names, but the discriminator is not part of the name, so a directory
    and a file with the same path get the same name. *)
Theorem make_flat_name_collision_free (p1 p2 : list string) (d1 d2 : bool) :
  segments_ok p1 = true → segments_ok p2 = true →
  (∀ ext : string,
     (p1, d1) ≠ (p2, d2) →
     make_flat_name p1 None d1 (Some ext)
     ≠ make_flat_name p2 None d2 (Some ext))
  ∧ (p1 ≠ p2 →
     make_flat_name p1 None d1 None ≠ make_flat_name p2 None d2 None)
  ∧ (p1 = p2 →
     make_flat_name p1 None d1 None = make_flat_name p2 None d2 None).
Proof.
  intros [N1 S1]%segments_ok_inv [N2 S2]%segments_ok_inv.
  split; [| split].
  - intros ext Hne Heq.
    unfold make_flat_name in Heq. apply append_inv_tail in Heq.
    destruct d1, d2.
    + apply append_inv_tail in Heq. apply join_inj in Heq; [| done ..].
      by subst.
    + by apply discriminators_differ in Heq.
    + symmetry in Heq. by apply discriminators_differ in Heq.
    + apply append_inv_tail in Heq. apply join_inj in Heq; [| done ..].
      by subst.
  - intros Hne Heq. unfold make_flat_name in Heq.
    by apply join_inj in Heq.
  - by intros ->.
Qed.

Lemma make_flat_name_collision_free_witness :
  (∀ ext : string,
     (["a"; "b"], true) ≠ (["a"; "c"], false) →
     make_flat_name ["a"; "b"] None true (Some ext)
     ≠ make_flat_name ["a"; "c"] None false (Some ext))
  ∧ (["a"; "b"] ≠ ["a"; "c"] →
     make_flat_name ["a"; "b"] None true None
     ≠ make_flat_name ["a"; "c"] None false None)
  ∧ (["a"; "b"] = ["a"; "c"] →
     make_flat_name ["a"; "b"] None true None
     = make_flat_name ["a"; "c"] None false None).
Proof.
  apply (make_flat_name_collision_free ["a"; "b"] ["a"; "c"] true false).
  - reflexivity.
  - reflexivity.
Defined.

Lemma spec_dotted_join (s : string) (more : list string) :
  join "." (s :: more) = s +:+ spec_dotted more.
Proof.
  revert s. induction more as [|t more IH]; intros s.
  - simpl. by rewrite append_nil_r.
  - rewrite join_cons, IH. reflexivity.
Qed.

(** C4: for a non-empty segment list and an extension, [make_flat_name]
    returns the segments joined by ['.'], then ["-toc"] for a directory and
    ["-file"] otherwise, then the extension: the name the specification's
    convention [<segment>.<segment>....<discriminator><extension>] spells
    out; and [make_flat_name(["a","b"], is_dir=True)] is ["a.b-toc.rst"]. *)
Theorem make_flat_name_format (path_list : list string) (is_dir : bool)
  (ext : string) :
  path_list ≠ [] →
  make_flat_name path_list None is_dir (Some ext)
  = join "." path_list +:+ (if is_dir then "-toc" else "-file") +:+ ext
  ∧ make_flat_name path_list None is_dir (Some ext)
    = spec_flat_name path_list is_dir ext
  ∧ make_flat_name ["a"; "b"] None true default_ext = "a.b-toc.rst".
Proof.
  intros Hne. split; [| split].
  - unfold make_flat_name. by rewrite append_assoc.
  - destruct path_list as [|s more]; [done |].
    unfold make_flat_name, spec_flat_name, spec_discriminator.
    rewrite spec_dotted_join. by rewrite !append_assoc.
  - reflexivity.
Qed.

Lemma make_flat_name_format_witness :
  make_flat_name ["a"; "b"] None false (Some ".txt")
  = join "." ["a"; "b"] +:+ "-file" +:+ ".txt"
  ∧ make_flat_name ["a"; "b"] None false (Some ".txt")
    = spec_flat_name ["a"; "b"] false ".txt"
  ∧ make_flat_name ["a"; "b"] None true default_ext = "a.b-toc.rst".
Proof.
  apply (make_flat_name_format ["a"; "b"] false ".txt"). intros [=].
Defined.

(** C10: without an extension ([ext=None]) the [is_dir] flag has no effect:
    the result is the segments joined by ['.'] and nothing else, the same
    for a directory and for a file. *)
Theorem make_flat_name_no_ext_ignores_is_dir (path_list : list string) :
  make_flat_name path_list None true None = join "." path_list
  ∧ make_flat_name path_list None false None = join "." path_list
  ∧ make_flat_name path_list None true None
    = make_flat_name path_list None false None.
Proof. by repeat split. Qed.

End FlatNamer.

(* ===================================================================== *)
(** ** Properties of the contraction loop *)
(* ===================================================================== *)

Module Engine.
Import Utils Cli.

Section run.
Context {C : Collaborators}.

(** The same command line with the [--dry-run] flag set or clear. *)
Definition with_dry_run (flag : bool) (args : Args) : Args :=
  {| gherkin_path := gherkin_path args;
     private := private args;
     exclude_patterns := exclude_patterns args;
     maxtocdepth := maxtocdepth args;
     output_path := output_path args;
     toc_name := toc_name args;
     step_glossary_name := step_glossary_name args;
     doc_project := doc_project args;
     dry_run := flag |}.

(** The artifact of one file in the words of the specification: a
    specification (feature) file is converted and persisted under the flat
    name of path plus file name with extension [".rst"]; any other file
    that is not a documentation source (reST) file is copied to the flat
    name without extension; a reST file gets no artifact of its own. *)
Definition spec_file_artifacts (args : Args) (path_segments : list string)
  (filename : string) : list event :=
  let source_path :=
    os_path_join (root_path args) [source_name_of path_segments filename] in
  if is_feature_file filename then
    [FileWrite
       (os_path_join (output_path args)
          [make_flat_name (path_segments ++ [filename]) None false
             (Some ".rst")])
       (join EmptyString
          (_output (feature_to_rst source_path (root_path args))))]
  else if is_rst_file filename then []
  else
    [FileCopy source_path
       (os_path_join (output_path args)
          [make_flat_name (path_segments ++ [filename]) None false None])].

(** The subdirectories of [u] that are in the set [ne]. *)
Definition retained_of (u : WorkUnit) (ne : gset string) : list string :=
  filter (λ subdir, os_path_join (a_dir u) [subdir] ∈ ne) (subdirs u).

(** The state of a run over [work] after [k] iterations of the loop. *)
Definition state_at (G : Globals) (args : Args) (work : list WorkUnit)
  (k : nat) : state :=
  iterate G args k (initial work).

Lemma state_at_succ (G : Globals) (args : Args) (work : list WorkUnit)
  (k : nat) :
  non_empty_dirs (state_at G args work (S k))
  = match rev work !! k with
    | Some u => mark (non_empty_dirs (state_at G args work k)) u
    | None => non_empty_dirs (state_at G args work k)
    end.
Proof.
  unfold state_at. rewrite !iterate_non_empty_dirs. simpl.
  destruct (rev work !! k) as [u|] eqn:Hk.
  - rewrite (take_S_r _ _ _ Hk). by rewrite fold_left_app.
  - apply lookup_ge_None in Hk.
    rewrite (take_ge (rev work) k) by done.
    by rewrite (take_ge (rev work) (S k)) by lia.
Qed.

Lemma state_at_mono (G : Globals) (args : Args) (work : list WorkUnit)
  (k j : nat) :
  non_empty_dirs (state_at G args work k)
  ⊆ non_empty_dirs (state_at G args work (k + j)).
Proof.
  induction j as [|j IH].
  - by rewrite Nat.add_0_r.
  - rewrite Nat.add_succ_r, state_at_succ.
    destruct (rev work !! (k + j)); [| done].
    etrans; [apply IH | apply mark_subseteq].
Qed.

(** C9: the loop terminates for every finite list of work units (the model
    of the loop is a total function), it ends with [work_to_do] empty, and
    its iterations pop the units one by one from the last to the first:
    the units visited are the list reversed, each unit once. *)
Theorem while_loop_visits_each_once (G : Globals) (args : Args)
  (st : state) :
  (while_loop G args st).1 = rev (work_to_do st)
  ∧ (while_loop G args st).1 ≡ₚ work_to_do st
  ∧ work_to_do (while_loop G args st).2 = []
  ∧ (while_loop G args st).2 = iterate G args (length (work_to_do st)) st.
Proof.
  rewrite while_loop_iterate. simpl. repeat split.
  - symmetry. apply Permutation_rev.
  - pose proof (iterate_work_to_do G args (length (work_to_do st)) st) as Hw.
    rewrite drop_ge in Hw by (by rewrite length_rev).
    apply (f_equal (@rev WorkUnit)) in Hw.
    by rewrite rev_involutive in Hw.
Qed.

(** C6: at every point of a run (after any number [k] of iterations), a
    directory path is in [non_empty_dirs] exactly if one of the units
    processed so far has that path and had, when it was processed, a file
    or a subdirectory whose path was in the set already; and the set only
    grows from one point of the run to a later one. *)
Theorem non_empty_dirs_invariant (G : Globals) (args : Args)
  (work : list WorkUnit) (k : nat) (d : string) :
  (d ∈ non_empty_dirs (state_at G args work k)
   ↔ ∃ (i : nat) (u : WorkUnit),
       i < k ∧ rev work !! i = Some u ∧ a_dir u = d
       ∧ (files u ≠ []
          ∨ ∃ subdir, subdir ∈ subdirs u
              ∧ os_path_join (a_dir u) [subdir]
                  ∈ non_empty_dirs (state_at G args work i)))
  ∧ (∀ j : nat, non_empty_dirs (state_at G args work k)
                ⊆ non_empty_dirs (state_at G args work (k + j))).
Proof.
  split; [| apply state_at_mono].
  induction k as [|k IH].
  - split; [intros Hd; by apply not_elem_of_empty in Hd |].
    intros (i & _ & Hi & _). lia.
  - rewrite state_at_succ. destruct (rev work !! k) as [u|] eqn:Hk.
    + rewrite elem_of_mark, keeps_iff. split.
      * intros [[Hkeep ->] | Hd].
        -- exists k, u. split; [lia |]. done.
        -- apply IH in Hd as (i & u' & Hi & Hrest).
           exists i, u'. split; [lia | done].
      * intros (i & u' & Hi & Hlook & Hdir & Hkeep).
        destruct (decide (i = k)) as [-> | Hne].
        -- left. rewrite Hk in Hlook. injection Hlook as <-. done.
        -- right. apply IH. exists i, u'. split; [lia | done].
    + rewrite IH. split.
      * intros (i & u' & Hi & Hrest). exists i, u'. split; [lia | done].
      * intros (i & u' & Hi & Hlook & Hrest).
        exists i, u'. split; [| done].
        apply lookup_ge_None in Hk. apply lookup_lt_Some in Hlook. lia.
Qed.

(** **** Effects of one unit *)

Lemma artifacts_app (evs evs' : list event) :
  artifacts (evs ++ evs') = artifacts evs ++ artifacts evs'.
Proof. apply List.filter_app. Qed.

Lemma artifacts_verbose (G : Globals) (message : string) :
  artifacts (verbose G message) = [].
Proof. unfold verbose. by destruct (VERBOSE G). Qed.

Lemma artifacts_write_to_file (G : Globals) (doc : SphinxWriter)
  (filename : string) :
  artifacts (write_to_file G doc filename)
  = [FileWrite filename (join EmptyString (_output doc))].
Proof.
  unfold write_to_file. by rewrite artifacts_app, artifacts_verbose.
Qed.

Lemma artifacts_process_file (G : Globals) (args : Args)
  (a_dir_list : list string) (a_file : string) :
  artifacts (process_file G args a_dir_list a_file)
  = spec_file_artifacts args a_dir_list a_file.
Proof.
  unfold process_file, spec_file_artifacts.
  destruct (is_feature_file a_file).
  - by rewrite artifacts_app, artifacts_verbose, artifacts_write_to_file.
  - destruct (is_rst_file a_file); simpl; [done |].
    by rewrite artifacts_app, artifacts_verbose.
Qed.

Lemma process_unit_skipped (G : Globals) (args : Args) (u : WorkUnit)
  (st : state) :
  keeps u (non_empty_dirs st) = false → process_unit G args u st = st.
Proof. unfold process_unit, keeps. by intros ->. Qed.

Lemma process_unit_dry_run (G : Globals) (args : Args) (u : WorkUnit)
  (st : state) :
  dry_run args = true → out (process_unit G args u st) = out st.
Proof.
  intros Hdry. unfold process_unit. rewrite Hdry. by destruct (negb _).
Qed.

Lemma process_unit_kept (G : Globals) (args : Args) (u : WorkUnit)
  (st : state) :
  keeps u (non_empty_dirs st) = true → dry_run args = false →
  out (process_unit G args u st)
  = out st
    ++ write_to_file G
         (toctree (a_dir_list u) (retained_of u (non_empty_dirs st))
            (files u) (maxtocdepth args) (root_path args))
         (if negb (list_truthy (work_to_do st))
          then top_level_toc_filename args
          else os_path_join (output_path args)
                 [make_flat_name (a_dir_list u) None true default_ext])
    ++ process_files G args (a_dir_list u) (files u).
Proof.
  unfold process_unit, keeps, retained_of. intros -> ->. simpl.
  by rewrite retained_subdirs_filter.
Qed.

Lemma keeps_false_iff (u : WorkUnit) (ne : gset string) :
  keeps u ne = false ↔ files u = [] ∧ retained_of u ne = [].
Proof.
  unfold keeps, retained_of. rewrite orb_false_iff, retained_subdirs_filter.
  split; intros [Hf Hs]; split.
  - by destruct (files u).
  - by destruct (filter _ _).
  - by rewrite Hf.
  - by rewrite Hs.
Qed.

Lemma iterate_dry_run (G : Globals) (args : Args) (k : nat) (st : state) :
  dry_run args = true → out (iterate G args k st) = out st.
Proof.
  intros Hdry. revert st. induction k as [|k IH]; intros st; [done |].
  simpl. destruct (rev (work_to_do st)) as [|x r] eqn:Hrev.
  - by rewrite (loop_body_nil _ _ _ Hrev).
  - rewrite (loop_body_cons _ _ _ _ _ Hrev), IH.
    by rewrite process_unit_dry_run.
Qed.

(** The state in which the loop ends, when the list is [root :: others]:
    the body applied to [root], the unit popped last, in the state that the
    iterations over [others] have left. *)
Lemma while_loop_last (G : Globals) (args : Args) (root : WorkUnit)
  (others : list WorkUnit) :
  let before := state_at G args (root :: others) (length others) in
  (while_loop G args (initial (root :: others))).2
  = process_unit G args root
      {| work_to_do := [];
         non_empty_dirs := non_empty_dirs before;
         out := out before |}.
Proof.
  intros before. rewrite while_loop_iterate. simpl work_to_do.
  change (length (root :: others)) with (S (length others)).
  rewrite iterate_succ. fold (state_at G args (root :: others) (length others)).
  fold before.
  assert (Hrev : rev (work_to_do before) = [root]).
  { unfold before, state_at. rewrite iterate_work_to_do. simpl.
    rewrite drop_app_length'; [done | by rewrite length_rev]. }
  by rewrite (loop_body_cons _ _ _ _ _ Hrev).
Qed.

(** C3: a unit with no files and with no subdirectory in [non_empty_dirs]
    is skipped: the iteration that pops it leaves [non_empty_dirs] and the
    effects as they were, so the unit is not added to the set and no TOC
    and no per-file artifact is written for it. *)
Theorem empty_unit_is_skipped (G : Globals) (args : Args) (st : state)
  (u : WorkUnit) (rest : list WorkUnit) :
  pop (work_to_do st) = Some (u, rest) →
  files u = [] →
  retained_of u (non_empty_dirs st) = [] →
  loop_body G args st
  = Some (u, {| work_to_do := rest;
                non_empty_dirs := non_empty_dirs st;
                out := out st |}).
Proof.
  intros Hpop Hfiles Hsub. unfold loop_body. rewrite Hpop.
  rewrite process_unit_skipped; [done |].
  by apply keeps_false_iff.
Qed.

(** C5: for every list of work units, a run with the dry-run flag set ends
    with the same [non_empty_dirs] as the run with the flag clear, and it
    persists nothing: no file written and no file copied, the glossary
    included. *)
Theorem dry_run_equivalence (G G' : Globals) (args : Args)
  (work : list WorkUnit) :
  retained (process_work G (with_dry_run true args) work)
  = retained (process_work G' (with_dry_run false args) work)
  ∧ artifacts (effects (process_work G (with_dry_run true args) work)) = [].
Proof.
  unfold process_work. simpl. rewrite !while_loop_iterate. simpl. split.
  - by rewrite !iterate_non_empty_dirs.
  - rewrite artifacts_app, iterate_dry_run by done. simpl.
    unfold glossary_pass. simpl.
    destruct (name_truthy _); [| done]. apply artifacts_verbose.
Qed.

(** C8 (amended): with a glossary name configured, when the builder
    returns no document no glossary file is written; outside dry-run mode
    the run then prints the line "No steps to include in the glossary: no
    glossary generated", and in dry-run mode what it reports is [verbose]'s
    "No glossary generated" (printed only when verbose output is on).  When
    the builder returns a document and the run is not a dry run, the
    glossary pass writes that document, once, to [<step_glossary_name>.rst]
    in the output path, and nothing else. *)
Theorem glossary_pass_outcome (G : Globals) (args : Args) (name : string) :
  step_glossary_name args = Some name → name ≠ EmptyString →
  (make_steps_glossary (doc_project args) = None →
   artifacts (glossary_pass G args) = []
   ∧ (dry_run args = false →
      glossary_pass G args
      = [Print "No steps to include in the glossary: no glossary generated"])
   ∧ (dry_run args = true →
      glossary_pass G args = verbose G "No glossary generated"))
  ∧ (∀ glossary : SphinxWriter,
       make_steps_glossary (doc_project args) = Some glossary →
       dry_run args = false →
       artifacts (glossary_pass G args)
       = [FileWrite (os_path_join (output_path args) [name +:+ ".rst"])
            (join EmptyString (_output glossary))]).
Proof.
  intros Hname Hne. unfold glossary_pass. rewrite Hname.
  destruct name as [|c name]; [done |]. simpl. split.
  - intros ->. destruct (dry_run args); repeat split; try done.
    apply artifacts_verbose.
  - intros glossary -> ->.
    by rewrite artifacts_app, artifacts_verbose, artifacts_write_to_file.
Qed.

(** C2 (amended): in a run that is not a dry run, when the unit popped last
    (the scan root, the first element of the list) has a file or a retained
    subdirectory, its TOC is written under the configured top-level TOC
    name; when it has neither, it is pruned like every other unit: the last
    iteration adds nothing to the effects or to [non_empty_dirs], and no
    top-level TOC is written for it. *)
Theorem root_toc_written_unless_pruned (G : Globals) (args : Args)
  (root : WorkUnit) (others : list WorkUnit) :
  dry_run args = false →
  let before := state_at G args (root :: others) (length others) in
  let kept := retained_of root (non_empty_dirs before) in
  (files root ≠ [] ∨ kept ≠ [] →
   FileWrite (top_level_toc_filename args)
     (join EmptyString
        (_output (toctree (a_dir_list root) kept (files root)
                    (maxtocdepth args) (root_path args))))
   ∈ effects (process_work G args (root :: others)))
  ∧ (files root = [] → kept = [] →
     effects (process_work G args (root :: others))
     = out before ++ glossary_pass G args
     ∧ retained (process_work G args (root :: others))
       = non_empty_dirs before).
Proof.
  intros Hwet before kept. unfold process_work. simpl.
  rewrite while_loop_last. fold before. split.
  - intros Hkept.
    assert (Hk : keeps root (non_empty_dirs before) = true).
    { destruct (keeps root (non_empty_dirs before)) eqn:Hk; [done |].
      apply keeps_false_iff in Hk as [Hf Hs]. by destruct Hkept. }
    rewrite process_unit_kept by done. simpl.
    apply elem_of_app. left. apply elem_of_app. right.
    apply elem_of_app. left. unfold write_to_file.
    apply elem_of_app. right. apply list_elem_of_here.
  - intros Hf Hs. rewrite process_unit_skipped; [done |].
    by apply keeps_false_iff.
Qed.

End run.

(** **** The theorems at concrete inputs *)

Definition empty_root : WorkUnit :=
  {| a_dir := "/src/root"; a_dir_list := ["root"];
     subdirs := []; files := [] |}.

Definition glossary_args (flag : bool) : Args :=
  {| gherkin_path := "/src/root";
     private := false;
     exclude_patterns := [];
     maxtocdepth := 4;
     output_path := "/out";
     toc_name := "gherkin";
     step_glossary_name := Some "glossary";
     doc_project := "root";
     dry_run := flag |}.

(** The example environment with a glossary builder that finds steps. *)
Definition example_env_with_steps : Collaborators := {|
  os_path_join := posix_join;
  os_path_abspath := os_path_abspath (Collaborators := example_env);
  os_path_dirname := os_path_dirname (Collaborators := example_env);
  scan_tree := scan_tree (Collaborators := example_env);
  is_feature_file := is_feature_file (Collaborators := example_env);
  is_rst_file := is_rst_file (Collaborators := example_env);
  toctree := toctree (Collaborators := example_env);
  feature_to_rst := feature_to_rst (Collaborators := example_env);
  make_steps_glossary := fun project => Some {| _output := ["steps of "; project] |}
|}.

(** The run over the example tree: [B] is pruned, [A] gets a TOC and its
    converted feature file, the root gets the top-level TOC, and
    [readme.rst] no artifact of its own. *)
Example example_run :
  effects (process_work (C := example_env) quiet example_args example_work)
  = [FileWrite "/out/root.A-toc.rst" "toc of root/A:feature1.feature";
     FileWrite "/out/root.A.feature1.feature-file.rst"
       "feature /src/root/A/feature1.feature";
     FileWrite "/out/gherkin.rst" "toc of root:Areadme.rst"]
  ∧ elements (retained (process_work (C := example_env) quiet example_args
                          example_work))
    = ["/src/root/A"; "/src/root"].
Proof. by vm_compute. Qed.

(** C2 (as stated, refuted): a tree whose root has no files and no
    subdirectories.  The only unit is the scan root; the run is not a dry
    run; nothing at all is written, so there is no top-level TOC. *)
Lemma empty_root_writes_no_toc :
  effects (process_work (C := example_env) quiet example_args [empty_root]) = []
  ∧ ¬ (∃ content : string,
         FileWrite (top_level_toc_filename (C := example_env) example_args)
           content
         ∈ effects (process_work (C := example_env) quiet example_args
                      [empty_root])).
Proof.
  assert (Heff : effects (process_work (C := example_env) quiet example_args
                            [empty_root]) = []) by by vm_compute.
  split; [done |]. rewrite Heff. intros [content Hin].
  by apply elem_of_nil in Hin.
Qed.

Lemma root_toc_written_unless_pruned_witness :
  FileWrite "/out/gherkin.rst" "toc of root:Areadme.rst"
  ∈ effects (process_work (C := example_env) quiet example_args example_work).
Proof.
  apply (root_toc_written_unless_pruned (C := example_env) quiet example_args
           {| a_dir := "/src/root"; a_dir_list := ["root"];
              subdirs := ["A"; "B"]; files := ["readme.rst"] |}
           [ {| a_dir := "/src/root/A"; a_dir_list := ["root"; "A"];
                subdirs := []; files := ["feature1.feature"] |};
             {| a_dir := "/src/root/B"; a_dir_list := ["root"; "B"];
                subdirs := []; files := [] |} ]).
  - reflexivity.
  - left. discriminate.
Defined.

Lemma empty_unit_is_skipped_witness :
  loop_body (C := example_env) quiet example_args
    (initial [empty_root;
              {| a_dir := "/src/root/B"; a_dir_list := ["root"; "B"];
                 subdirs := ["C"]; files := [] |}])
  = Some ({| a_dir := "/src/root/B"; a_dir_list := ["root"; "B"];
             subdirs := ["C"]; files := [] |},
          {| work_to_do := [empty_root]; non_empty_dirs := ∅; out := [] |}).
Proof.
  apply (empty_unit_is_skipped (C := example_env) quiet example_args
           (initial [empty_root;
                     {| a_dir := "/src/root/B"; a_dir_list := ["root"; "B"];
                        subdirs := ["C"]; files := [] |}])).
  - reflexivity.
  - reflexivity.
  - vm_compute. reflexivity.
Defined.

(** C8 (as stated, refuted): a dry run without verbose output, a glossary
    name configured, a builder that returns no document.  The glossary pass
    does nothing at all: no file, and no message either. *)
Lemma quiet_dry_run_reports_nothing :
  name_truthy (step_glossary_name (glossary_args true)) = true
  ∧ make_steps_glossary (Collaborators := example_env)
      (doc_project (glossary_args true)) = None
  ∧ glossary_pass (C := example_env) quiet (glossary_args true) = []
  ∧ ¬ (∃ message : string,
         Print message
         ∈ effects (process_work (C := example_env) quiet (glossary_args true)
                      example_work)).
Proof.
  split; [done |]. split; [done |]. split; [done |].
  assert (Heff : effects (process_work (C := example_env) quiet
                            (glossary_args true) example_work) = [])
    by by vm_compute.
  rewrite Heff. intros [message Hin]. by apply elem_of_nil in Hin.
Qed.

Lemma glossary_pass_outcome_witness :
  (artifacts (glossary_pass (C := example_env) quiet (glossary_args false)) = []
   ∧ glossary_pass (C := example_env) quiet (glossary_args false)
     = [Print "No steps to include in the glossary: no glossary generated"])
  ∧ artifacts (glossary_pass (C := example_env_with_steps) quiet
                 (glossary_args false))
    = [FileWrite "/out/glossary.rst" "steps of root"].
Proof.
  split.
  - destruct (glossary_pass_outcome (C := example_env) quiet
                (glossary_args false) "glossary" eq_refl) as [Hnone _];
      [discriminate |].
    destruct (Hnone eq_refl) as (Hart & Hwet & _).
    split; [exact Hart | exact (Hwet eq_refl)].
  - destruct (glossary_pass_outcome (C := example_env_with_steps) quiet
                (glossary_args false) "glossary" eq_refl) as [_ Hsome];
      [discriminate |].
    exact (Hsome _ eq_refl eq_refl).
Defined.

End Engine.

(* ===================================================================== *)
(** ** utils.py: escaping and role names *)
(* ===================================================================== *)

Module Text.
Import Utils.

Definition backslash : ascii := ascii_of_nat 92.
Definition double_quote : ascii := ascii_of_nat 34.

(** The tuple of line 79: the characters that get a backslash. *)
Definition escaped_characters : list ascii :=
  ["*"%char; double_quote; "#"%char; ":"%char; "<"%char; ">"%char].

(** Line 79: [{ord(x): f"\\{x}" for x in (...)}], a dictionary from a
    character to the text that replaces it. *)
Definition _escape_mappings : gmap ascii string :=
  list_to_map
    ((λ x, (x, String backslash (String x EmptyString)))
       <$> escaped_characters).

(** Lines 80-81: a copy with one more key, the backslash, mapped to three
    backslashes. *)
Definition _advanced_escape_mappings : gmap ascii string :=
  <[backslash :=
      String backslash (String backslash (String backslash EmptyString))]>
    _escape_mappings.

(** [str.translate(table)] for a table whose values are strings: a
    character that is a key is replaced by its value, any other character
    stays.  The keys used here are ASCII, and no byte of a multi-byte UTF-8
    sequence is ASCII, so translating bytes is translating characters. *)
Definition translate_char (table : gmap ascii string) (c : ascii) : string :=
  match table !! c with
  | Some replacement => replacement
  | None => String c EmptyString
  end.

Fixpoint translate (table : gmap ascii string) (s : string) : string :=
  match s with
  | EmptyString => EmptyString
  | String c s' => translate_char table c +:+ translate table s'
  end.

(** [rst_escape(unescaped, slash_escape=False)]. *)
Definition rst_escape (unescaped : string) (slash_escape : bool) : string :=
  translate
    (if slash_escape then _advanced_escape_mappings else _escape_mappings)
    unescaped.

(** [s.replace(old, new)] for one-character [old] and [new]. *)
Fixpoint replace_char (old new : ascii) (s : string) : string :=
  match s with
  | EmptyString => EmptyString
  | String c s' =>
      String (if Ascii.eqb c old then new else c) (replace_char old new s')
  end.

(** [role_name_from(s)]: [s.lower().replace(" ", "-")].  [str.lower] is
    Python's own; it is a parameter here. *)
Definition role_name_from (str_lower : string → string) (s : string)
  : string :=
  replace_char " " "-" (str_lower s).

(** [apply_role(role, content)]. *)
Definition apply_role (role content : string) : string :=
  ":" +:+ role +:+ ":`" +:+ content +:+ "`".

(** Whether a character is replaced by [rst_escape]. *)
Definition is_escaped (slash_escape : bool) (c : ascii) : bool :=
  bool_decide (c ∈ escaped_characters)
  || (slash_escape && bool_decide (c = backslash)).

Fixpoint has_char (c : ascii) (s : string) : bool :=
  match s with
  | EmptyString => false
  | String d s' => Ascii.eqb d c || has_char c s'
  end.

(** *** The two tables, key by key *)

Lemma escape_mappings_lookup (c : ascii) :
  _escape_mappings !! c
  = if bool_decide (c ∈ escaped_characters)
    then Some (String backslash (String c EmptyString))
    else None.
Proof.
  unfold _escape_mappings.
  induction escaped_characters as [|x l IH]; [done |].
  rewrite fmap_cons. simpl list_to_map.
  destruct (decide (x = c)) as [-> | Hne].
  - rewrite lookup_insert_eq.
    by rewrite bool_decide_eq_true_2 by apply list_elem_of_here.
  - rewrite lookup_insert_ne by done. rewrite IH.
    case_bool_decide as Hin; case_bool_decide as Hin'; try done.
    + exfalso. apply Hin'. by apply list_elem_of_further.
    + exfalso. apply elem_of_cons in Hin' as [-> | Hin']; done.
Qed.

Lemma backslash_not_escaped_character : backslash ∉ escaped_characters.
Proof.
  intros Hin. unfold escaped_characters in Hin.
  repeat (apply elem_of_cons in Hin as [Heq | Hin];
          [discriminate Heq |]).
  by apply elem_of_nil in Hin.
Qed.

(** The three shapes of the text a character is replaced by. *)
Lemma translate_char_plain (b : bool) (c : ascii) :
  is_escaped b c = false →
  translate_char (if b then _advanced_escape_mappings else _escape_mappings) c
  = String c EmptyString.
Proof.
  unfold is_escaped, translate_char.
  intros [Hc Hb]%orb_false_iff. apply bool_decide_eq_false in Hc.
  destruct b.
  - simpl in Hb. apply bool_decide_eq_false in Hb.
    unfold _advanced_escape_mappings.
    rewrite lookup_insert_ne by done. rewrite escape_mappings_lookup.
    by rewrite bool_decide_eq_false_2.
  - rewrite escape_mappings_lookup. by rewrite bool_decide_eq_false_2.
Qed.

Lemma translate_char_special (b : bool) (c : ascii) :
  c ∈ escaped_characters →
  translate_char (if b then _advanced_escape_mappings else _escape_mappings) c
  = String backslash (String c EmptyString).
Proof.
  intros Hc. unfold translate_char.
  assert (Hne : backslash ≠ c).
  { intros <-. by apply backslash_not_escaped_character. }
  destruct b.
  - unfold _advanced_escape_mappings.
    rewrite lookup_insert_ne by done. rewrite escape_mappings_lookup.
    by rewrite bool_decide_eq_true_2.
  - rewrite escape_mappings_lookup. by rewrite bool_decide_eq_true_2.
Qed.

Lemma translate_char_backslash :
  translate_char _advanced_escape_mappings backslash
  = String backslash (String backslash (String backslash EmptyString)).
Proof.
  unfold translate_char, _advanced_escape_mappings.
  by rewrite lookup_insert_eq.
Qed.

(** Every character is of exactly one of the three kinds. *)
Inductive char_kind (b : bool) (c : ascii) : Prop :=
| kind_special : c ∈ escaped_characters → char_kind b c
| kind_backslash : b = true → c = backslash → char_kind b c
| kind_plain : is_escaped b c = false → char_kind b c.

Lemma char_kind_total (b : bool) (c : ascii) : char_kind b c.
Proof.
  destruct (decide (c ∈ escaped_characters)) as [Hc | Hc];
    [by apply kind_special |].
  destruct b.
  - destruct (decide (c = backslash)) as [-> | Hb];
      [by apply kind_backslash |].
    apply kind_plain. unfold is_escaped.
    by rewrite !bool_decide_eq_false_2.
  - apply kind_plain. unfold is_escaped.
    by rewrite bool_decide_eq_false_2.
Qed.

(** *** Properties of [rst_escape] *)

Definition table (b : bool) : gmap ascii string :=
  if b then _advanced_escape_mappings else _escape_mappings.

Lemma rst_escape_cons (c : ascii) (s : string) (b : bool) :
  rst_escape (String c s) b = translate_char (table b) c +:+ rst_escape s b.
Proof. reflexivity. Qed.

Lemma rst_escape_special (c : ascii) (s : string) (b : bool) :
  c ∈ escaped_characters →
  rst_escape (String c s) b = String backslash (String c (rst_escape s b)).
Proof.
  intros Hc. rewrite rst_escape_cons. unfold table.
  by rewrite translate_char_special.
Qed.

Lemma rst_escape_backslash (s : string) :
  rst_escape (String backslash s) true
  = String backslash (String backslash (String backslash (rst_escape s true))).
Proof.
  rewrite rst_escape_cons. unfold table.
  by rewrite translate_char_backslash.
Qed.

Lemma rst_escape_plain (c : ascii) (s : string) (b : bool) :
  is_escaped b c = false →
  rst_escape (String c s) b = String c (rst_escape s b).
Proof.
  intros Hc. rewrite rst_escape_cons. unfold table.
  by rewrite translate_char_plain.
Qed.

Lemma is_escaped_special (b : bool) (c : ascii) :
  c ∈ escaped_characters → is_escaped b c = true.
Proof.
  intros Hc. unfold is_escaped. by rewrite bool_decide_eq_true_2.
Qed.

Lemma plain_not_special (b : bool) (c : ascii) :
  is_escaped b c = false → c ∉ escaped_characters.
Proof.
  intros Hp Hc. by rewrite (is_escaped_special b c Hc) in Hp.
Qed.

(** No character of a string needs escaping. *)
Fixpoint all_plain (b : bool) (s : string) : bool :=
  match s with
  | EmptyString => true
  | String c s' => negb (is_escaped b c) && all_plain b s'
  end.

Lemma rst_escape_length_ge (s : string) (b : bool) :
  String.length s ≤ String.length (rst_escape s b).
Proof.
  induction s as [|c s IH]; [done |].
  destruct (char_kind_total b c) as [Hc | -> -> | Hc].
  - rewrite rst_escape_special by done. simpl. lia.
  - rewrite rst_escape_backslash. simpl. simpl in IH. lia.
  - rewrite rst_escape_plain by done. simpl. lia.
Qed.

(** The escaped text never starts with a character to be escaped: such a
    character comes behind its backslash. *)
Lemma rst_escape_head (s r : string) (b : bool) (c : ascii) :
  rst_escape s b = String c r → c ∉ escaped_characters.
Proof.
  destruct s as [|d s]; [done |].
  destruct (char_kind_total b d) as [Hd | -> -> | Hd].
  - rewrite rst_escape_special by done. intros [= <- _].
    apply backslash_not_escaped_character.
  - rewrite rst_escape_backslash. intros [= <- _].
    apply backslash_not_escaped_character.
  - rewrite rst_escape_plain by done. intros [= <- _].
    by apply (plain_not_special b).
Qed.

(** X1: [rst_escape] works character by character: escaping a concatenation is
    concatenating the escaped parts, with or without [slash_escape]. *)
Theorem rst_escape_app (s t : string) (b : bool) :
  rst_escape (s +:+ t) b = rst_escape s b +:+ rst_escape t b.
Proof.
  induction s as [|c s IH]; [done |].
  rewrite append_String, !rst_escape_cons, IH. by rewrite append_assoc.
Qed.

(** X2: [rst_escape] returns its argument unchanged exactly when the argument
    holds none of the characters it escapes (the six of the table, and the
    backslash under [slash_escape]). *)
Theorem rst_escape_unchanged_iff (s : string) (b : bool) :
  rst_escape s b = s ↔ all_plain b s = true.
Proof.
  induction s as [|c s IH]; [done |].
  simpl all_plain. rewrite andb_true_iff, negb_true_iff, <- IH.
  pose proof (rst_escape_length_ge s b) as Hlen.
  destruct (char_kind_total b c) as [Hc | -> -> | Hc].
  - rewrite rst_escape_special by done.
    rewrite (is_escaped_special b c Hc). split; [| by intros [? _]].
    intros Heq. apply (f_equal String.length) in Heq. simpl in Heq. lia.
  - rewrite rst_escape_backslash. split; [| by intros [? _]].
    intros Heq. apply (f_equal String.length) in Heq. simpl in Heq. lia.
  - rewrite rst_escape_plain by done. split.
    + by intros [= ->].
    + by intros [_ ->].
Qed.

(** X3: In the escaped text, each of the six characters of the table stands
    directly behind a backslash. *)
Theorem rst_escape_guards_specials (s : string) (b : bool) (n : nat)
  (c : ascii) :
  String.get n (rst_escape s b) = Some c →
  c ∈ escaped_characters →
  ∃ m : nat, n = S m ∧ String.get m (rst_escape s b) = Some backslash.
Proof.
  revert n. induction s as [|d s IH]; intros n Hget Hc; [done |].
  destruct (char_kind_total b d) as [Hd | -> -> | Hd].
  - rewrite rst_escape_special in * by done.
    destruct n as [|[|n]]; simpl in Hget.
    + injection Hget as <-. by apply backslash_not_escaped_character in Hc.
    + by exists 0.
    + destruct (IH n Hget Hc) as (m & -> & Hm). by exists (S (S m)).
  - rewrite rst_escape_backslash in *.
    destruct n as [|[|[|n]]]; simpl in Hget;
      try (injection Hget as <-;
           by apply backslash_not_escaped_character in Hc).
    destruct (IH n Hget Hc) as (m & -> & Hm). by exists (S (S (S m))).
  - rewrite rst_escape_plain in * by done.
    destruct n as [|n]; simpl in Hget.
    + injection Hget as <-. by apply (plain_not_special b) in Hc.
    + destruct (IH n Hget Hc) as (m & -> & Hm). by exists (S m).
Qed.

Lemma rst_escape_guards_specials_witness :
  ∃ m : nat, 2 = S m
    ∧ String.get m (rst_escape "a:b*c" false) = Some backslash.
Proof.
  apply (rst_escape_guards_specials "a:b*c" false 2 ":"%char).
  - reflexivity.
  - apply list_elem_of_further, list_elem_of_further, list_elem_of_further,
      list_elem_of_here.
Defined.

(** X4: [rst_escape] loses nothing: two texts with the same escaped form are
    the same text, with or without [slash_escape]. *)
Theorem rst_escape_inj (s t : string) (b : bool) :
  rst_escape s b = rst_escape t b → s = t.
Proof.
  revert t. induction s as [|c s IH]; intros [|d t] Heq; try done.
  - exfalso. pose proof (rst_escape_length_ge (String d t) b) as Hlen.
    rewrite <- Heq in Hlen. simpl in Hlen. lia.
  - exfalso. pose proof (rst_escape_length_ge (String c s) b) as Hlen.
    rewrite Heq in Hlen. simpl in Hlen. lia.
  - destruct (char_kind_total b c) as [Hc | Hb Hc | Hc];
      destruct (char_kind_total b d) as [Hd | Hb' Hd | Hd].
    + rewrite !rst_escape_special in Heq by done.
      injection Heq as -> Heq. f_equal. by apply IH.
    + subst b d. rewrite rst_escape_special, rst_escape_backslash in Heq
        by done.
      injection Heq as -> _. by apply backslash_not_escaped_character in Hc.
    + rewrite rst_escape_special, (rst_escape_plain d) in Heq by done.
      injection Heq as <- Heq. symmetry in Heq.
      by apply rst_escape_head in Heq.
    + subst b c. rewrite (rst_escape_special d), rst_escape_backslash in Heq
        by done.
      injection Heq as <- _. by apply backslash_not_escaped_character in Hd.
    + subst b c d. rewrite !rst_escape_backslash in Heq.
      injection Heq as Heq. f_equal. by apply IH.
    + subst b c. rewrite rst_escape_backslash, (rst_escape_plain d) in Heq
        by done.
      injection Heq as <- _. by vm_compute in Hd.
    + rewrite (rst_escape_special d), (rst_escape_plain c) in Heq by done.
      injection Heq as -> Heq. by apply rst_escape_head in Heq.
    + subst b d. rewrite rst_escape_backslash, (rst_escape_plain c) in Heq
        by done.
      injection Heq as -> _. by vm_compute in Hc.
    + rewrite (rst_escape_plain c), (rst_escape_plain d) in Heq by done.
      injection Heq as -> Heq. f_equal. by apply IH.
Qed.

Lemma rst_escape_inj_witness : "a*b" = "a*b".
Proof.
  apply (rst_escape_inj "a*b" "a*b" true). reflexivity.
Defined.

(** *** Role names *)

(** X5: A role name holds no space, whatever text it is made from. *)
Theorem role_name_from_no_space (str_lower : string → string) (s : string) :
  has_char " " (role_name_from str_lower s) = false.
Proof.
  unfold role_name_from.
  induction (str_lower s) as [|c r IH]; [done |].
  simpl. rewrite IH, orb_false_r.
  destruct (Ascii.eqb c " ") eqn:Hc; [done | exact Hc].
Qed.

End Text.

(* ===================================================================== *)
(** ** utils.py: SphinxWriter *)
(* ===================================================================== *)

Module Writer.
Import Utils.

(** [s * n] for a string and an integer: nothing when [n] is not positive. *)
Definition repeat_string (s : string) (n : Z) : string :=
  Nat.iter (Z.to_nat n) (λ acc, s +:+ acc) EmptyString.

Definition newline : string := String (ascii_of_nat 10) EmptyString.

(** [add_output(line, line_breaks=1, indent_by=0)].  The object is changed
    in place; here the changed object is returned. *)
Definition add_output (self : SphinxWriter) (line : string)
  (line_breaks indent_by : Z) : SphinxWriter :=
  let line_breaks_str := repeat_string newline line_breaks in
  {| _output :=
       _output self ++ [repeat_string " " indent_by +:+ line +:+ line_breaks_str] |}.

(** [blank_line()]. *)
Definition blank_line (self : SphinxWriter) : SphinxWriter :=
  add_output self EmptyString 1 0.

(** The class attribute [sections]. *)
Definition sections : list string :=
  [EmptyString; "="; "-"; "~"; "."; "*"; "+"; "_"; "<"; ">"; "/"].

(** [l[i]] for a list and an integer: a negative index counts from the end;
    [None] stands for [IndexError]. *)
Definition list_index {A} (l : list A) (i : Z) : option A :=
  let i := if (i <? 0)%Z then (i + Z.of_nat (length l))%Z else i in
  if (i <? 0)%Z || (Z.of_nat (length l) <=? i)%Z then None
  else l !! Z.to_nat i.

(** [len(s)]: the number of characters, that is of bytes that do not
    continue a multi-byte UTF-8 sequence (bytes outside 128..191). *)
Definition starts_character (c : ascii) : bool :=
  (nat_of_ascii c <? 128) || (191 <? nat_of_ascii c).

Definition str_len (s : string) : nat :=
  length (List.filter starts_character (list_ascii_of_string s)).

(** The characters [str.isspace] holds for, by their UTF-8 bytes: the ASCII
    ones (9-13, 28-32); U+0085 and U+00A0; U+1680, U+2000-U+200A, U+2028,
    U+2029, U+202F, U+205F and U+3000. *)
Definition space1 (b : ascii) : bool :=
  let n := nat_of_ascii b in
  ((9 <=? n) && (n <=? 13)) || ((28 <=? n) && (n <=? 32)).

Definition space2 (b1 b2 : ascii) : bool :=
  (nat_of_ascii b1 =? 194)
  && ((nat_of_ascii b2 =? 133) || (nat_of_ascii b2 =? 160)).

Definition space3 (b1 b2 b3 : ascii) : bool :=
  let n1 := nat_of_ascii b1 in
  let n2 := nat_of_ascii b2 in
  let n3 := nat_of_ascii b3 in
  ((n1 =? 225) && (n2 =? 154) && (n3 =? 128))
  || ((n1 =? 226) && (n2 =? 128)
      && (((128 <=? n3) && (n3 <=? 138))
          || (n3 =? 168) || (n3 =? 169) || (n3 =? 175)))
  || ((n1 =? 226) && (n2 =? 129) && (n3 =? 159))
  || ((n1 =? 227) && (n2 =? 128) && (n3 =? 128)).

(** [s.rstrip()] on the bytes of [s] from the last to the first: drop
    whitespace characters as long as the text ends with one. *)
Fixpoint rstrip_rev (l : list ascii) : list ascii :=
  match l with
  | [] => []
  | b0 :: r0 =>
      if space1 b0 then rstrip_rev r0
      else
        match r0 with
        | [] => l
        | b1 :: r1 =>
            if space2 b1 b0 then rstrip_rev r1
            else
              match r1 with
              | [] => l
              | b2 :: r2 => if space3 b2 b1 b0 then rstrip_rev r2 else l
              end
        end
  end.

Definition str_rstrip (s : string) : string :=
  string_of_list_ascii (rev (rstrip_rev (rev (list_ascii_of_string s)))).

(** How a call ends: it returns, or it raises [IndexError]; either way with
    the object as the call has left it. *)
Inductive result :=
| Done (self : SphinxWriter)
| IndexError (self : SphinxWriter).

(** [create_section(level, section)].  The title is added first; the
    lookup of [sections[level]] comes after it. *)
Definition create_section (self : SphinxWriter) (level : Z)
  (section : string) : result :=
  let self := add_output self section 1 0 in
  match list_index sections level with
  | None => IndexError self
  | Some mark =>
      Done (add_output self
              (repeat_string mark (Z.of_nat (str_len (str_rstrip section))))
              2 0)
  end.

(** What [write_to_file] writes: the lines joined by nothing. *)
Definition file_content (self : SphinxWriter) : string :=
  join EmptyString (_output self).

(** *** Joining and repeating *)

Lemma join_empty_snoc (l : list string) (x : string) :
  join EmptyString (l ++ [x]) = join EmptyString l +:+ x.
Proof.
  induction l as [|a l IH]; [done |].
  destruct l as [|a' l].
  - simpl. by rewrite append_Empty.
  - change (join EmptyString ((a :: a' :: l) ++ [x]))
      with (a +:+ EmptyString +:+ join EmptyString ((a' :: l) ++ [x])).
    rewrite IH.
    change (join EmptyString (a :: a' :: l))
      with (a +:+ EmptyString +:+ join EmptyString (a' :: l)).
    by rewrite !append_Empty, append_assoc.
Qed.

Lemma repeat_string_char (c : ascii) (n : nat) :
  repeat_string (String c EmptyString) (Z.of_nat n)
  = string_of_list_ascii (repeat c n).
Proof.
  unfold repeat_string. rewrite Nat2Z.id.
  induction n as [|n IH]; [done |].
  simpl. by rewrite IH.
Qed.

Lemma add_output_one (self : SphinxWriter) (line : string) :
  add_output self line 1 0
  = {| _output := _output self ++ [line +:+ newline] |}.
Proof. reflexivity. Qed.

Lemma add_output_two (self : SphinxWriter) (line : string) :
  add_output self line 2 0
  = {| _output := _output self ++ [line +:+ newline +:+ newline] |}.
Proof. reflexivity. Qed.

(** *** Stripping keeps a prefix *)

Lemma rstrip_rev_suffix (l : list ascii) :
  ∃ dropped : list ascii, l = dropped ++ rstrip_rev l.
Proof.
  remember (length l) as n eqn:Hn. revert l Hn.
  induction n as [n IH] using lt_wf_ind. intros l Hn.
  destruct l as [|b0 r0]; [by exists [] |].
  simpl. destruct (space1 b0).
  { destruct (IH (length r0)) with (l := r0) as [d Hd];
      [simpl in Hn; lia | done |].
    exists (b0 :: d). simpl. by rewrite <- Hd. }
  destruct r0 as [|b1 r1]; [by exists [] |].
  destruct (space2 b1 b0).
  { destruct (IH (length r1)) with (l := r1) as [d Hd];
      [simpl in Hn; lia | done |].
    exists (b0 :: b1 :: d). simpl. by rewrite <- Hd. }
  destruct r1 as [|b2 r2]; [by exists [] |].
  destruct (space3 b2 b1 b0); [| by exists []].
  destruct (IH (length r2)) with (l := r2) as [d Hd];
    [simpl in Hn; lia | done |].
  exists (b0 :: b1 :: b2 :: d). simpl. by rewrite <- Hd.
Qed.

Lemma str_rstrip_prefix (s : string) :
  ∃ dropped : string, s = str_rstrip s +:+ dropped.
Proof.
  unfold str_rstrip.
  destruct (rstrip_rev_suffix (rev (list_ascii_of_string s))) as [d Hd].
  exists (string_of_list_ascii (rev d)).
  apply list_ascii_inj.
  rewrite list_ascii_app, !list_ascii_of_string_of_list_ascii.
  rewrite <- rev_app_distr, <- Hd. by rewrite rev_involutive.
Qed.

Lemma str_len_app (s t : string) : str_len (s +:+ t) = str_len s + str_len t.
Proof.
  unfold str_len. by rewrite list_ascii_app, List.filter_app, length_app.
Qed.

Lemma str_len_rstrip (s : string) : str_len (str_rstrip s) ≤ str_len s.
Proof.
  destruct (str_rstrip_prefix s) as [d Hd].
  rewrite Hd at 2. rewrite str_len_app. lia.
Qed.

(** *** The levels that have a section character *)

Lemma list_index_sections_None (level : Z) :
  list_index sections level = None ↔ (level < -11 ∨ 10 < level)%Z.
Proof.
  unfold list_index. simpl length.
  destruct (Z.ltb_spec level 0) as [Hneg | Hpos].
  - destruct (Z.ltb_spec (level + Z.of_nat 11) 0) as [Hlow | Hin];
      destruct (Z.leb_spec (Z.of_nat 11) (level + Z.of_nat 11)) as [Hhigh | Hin'];
      simpl; try (split; [intros _ | done]; lia).
    split; [| lia]. intros Hlook%lookup_ge_None. simpl in Hlook. lia.
  - destruct (Z.ltb_spec level 0) as [Hlow | _]; [lia |].
    destruct (Z.leb_spec (Z.of_nat 11) level) as [Hhigh | Hin]; simpl.
    + split; [intros _ | done]. lia.
    + split; [| lia]. intros Hlook%lookup_ge_None. simpl in Hlook. lia.
Qed.

(** *** Properties of the writer *)

(** X6: Every [add_output] appends to the text that [write_to_file] will write:
    the indentation, the line, the line breaks, in this order, behind what
    was there; [blank_line] appends one line break. *)
Theorem add_output_appends (self : SphinxWriter) (line : string)
  (line_breaks indent_by : Z) :
  file_content (add_output self line line_breaks indent_by)
  = file_content self +:+ repeat_string " " indent_by +:+ line
    +:+ repeat_string newline line_breaks
  ∧ file_content (blank_line self) = file_content self +:+ newline.
Proof.
  unfold file_content, blank_line, add_output. simpl.
  by rewrite !join_empty_snoc.
Qed.

(** X7: For the levels 1 to 10 [create_section] returns normally.  It adds the
    title line and then an underline of the level's one character, repeated
    once per character of the title without its trailing whitespace (so the
    underline is never longer than the title), followed by an empty line. *)
Theorem create_section_underlines (self : SphinxWriter) (level : Z)
  (section : string) :
  (1 ≤ level ≤ 10)%Z →
  ∃ (c : ascii) (n : nat),
    list_index sections level = Some (String c EmptyString)
    ∧ n = str_len (str_rstrip section)
    ∧ n ≤ str_len section
    ∧ create_section self level section
      = Done {| _output :=
                  _output self
                  ++ [section +:+ newline;
                      string_of_list_ascii (repeat c n)
                      +:+ newline +:+ newline] |}.
Proof.
  intros Hlevel.
  assert (Hk : ∃ k : nat, level = Z.of_nat k ∧ 1 ≤ k ≤ 10)
    by (exists (Z.to_nat level); lia).
  destruct Hk as (k & -> & Hk).
  assert (Hmark : ∃ c : ascii,
            list_index sections (Z.of_nat k) = Some (String c EmptyString)).
  { do 11 (destruct k as [|k]; [try lia; by eexists |]). lia. }
  destruct Hmark as [c Hmark].
  exists c, (str_len (str_rstrip section)).
  split; [done |]. split; [done |]. split; [apply str_len_rstrip |].
  unfold create_section. rewrite Hmark, add_output_one, add_output_two.
  simpl. by rewrite repeat_string_char, <- app_assoc.
Qed.

Lemma create_section_underlines_witness :
  ∃ (c : ascii) (n : nat),
    list_index sections 2 = Some (String c EmptyString)
    ∧ n = str_len (str_rstrip "Feature  ")
    ∧ n ≤ str_len "Feature  "
    ∧ create_section {| _output := [] |} 2 "Feature  "
      = Done {| _output :=
                  [] ++ ["Feature  " +:+ newline;
                         string_of_list_ascii (repeat c n)
                         +:+ newline +:+ newline] |}.
Proof.
  apply (create_section_underlines {| _output := [] |} 2 "Feature  "). lia.
Defined.

(** X8: [create_section] raises [IndexError] exactly for the levels below -11
    and above 10, and it has then already added the title line, without an
    underline; for every other level it returns normally. *)
Theorem create_section_index_error (self : SphinxWriter) (level : Z)
  (section : string) :
  (create_section self level section
   = IndexError {| _output := _output self ++ [section +:+ newline] |}
   ↔ (level < -11 ∨ 10 < level)%Z)
  ∧ ((∃ self' : SphinxWriter, create_section self level section = Done self')
     ↔ (-11 ≤ level ≤ 10)%Z).
Proof.
  unfold create_section. rewrite add_output_one.
  pose proof (list_index_sections_None level) as Hnone.
  destruct (list_index sections level) as [mark|] eqn:Hmark.
  - assert (Hrange : (-11 ≤ level ≤ 10)%Z).
    { destruct (decide (level < -11 ∨ 10 < level)%Z) as [Hout | Hin];
        [by apply Hnone in Hout | lia]. }
    split; split; try done; try lia. by eexists.
  - assert (Hrange : (level < -11 ∨ 10 < level)%Z) by by apply Hnone.
    split; split; try done; try lia. by intros [self' ?].
Qed.

(** X9: A negative level counts from the end of [sections]: a level from -11 to
    -1 does what the level eleven higher does.  Level 0 (and so level -11)
    selects the empty string: the title is followed by an empty underline
    line and an empty line. *)
Theorem create_section_low_levels (self : SphinxWriter) (level : Z)
  (section : string) :
  ((-11 ≤ level < 0)%Z →
   create_section self level section
   = create_section self (level + 11) section)
  ∧ create_section self 0 section
    = Done {| _output :=
                _output self ++ [section +:+ newline; newline +:+ newline] |}.
Proof.
  split.
  - intros Hlevel. unfold create_section.
    assert (Hidx : list_index sections level
                   = list_index sections (level + 11)).
    { unfold list_index. simpl length.
      destruct (Z.ltb_spec level 0); [| lia].
      destruct (Z.ltb_spec (level + 11) 0); [lia |].
      done. }
    by rewrite Hidx.
  - assert (Hnone : ∀ n : Z, repeat_string EmptyString n = EmptyString).
    { intros n. unfold repeat_string.
      induction (Z.to_nat n) as [|k IH]; [done |]. simpl. by rewrite IH. }
    unfold create_section.
    change (list_index sections 0) with (Some EmptyString).
    rewrite add_output_one, Hnone, add_output_two. simpl.
    by rewrite <- app_assoc.
Qed.

End Writer.

(* ===================================================================== *)
(** ** cli.py: what a whole run writes, prints and retains *)
(* ===================================================================== *)

Module Run.
Import Utils Cli Engine.

Section run.
Context {C : Collaborators}.

(** The retained set when the unit at position [i] of the popping order is
    reached: the units before it, marked one after the other. *)
Definition retained_before (work : list WorkUnit) (i : nat) : gset string :=
  fold_left mark (take i (rev work)) ∅.

(** The files a run leaves for one unit: nothing if the unit is pruned or
    the run is a dry run; otherwise its TOC, under the top-level name for
    the unit popped last and under its flat name for any other, and then
    the artifact of each of its files. *)
Definition unit_artifacts (args : Args) (u : WorkUnit) (ne : gset string)
  (last : bool) : list event :=
  if negb (keeps u ne) || dry_run args then []
  else
    FileWrite
      (if last then top_level_toc_filename args
       else os_path_join (output_path args)
              [make_flat_name (a_dir_list u) None true (Some ".rst")])
      (join EmptyString
         (_output (toctree (a_dir_list u) (retained_of u ne) (files u)
                     (maxtocdepth args) (root_path args))))
    :: flat_map (spec_file_artifacts args (a_dir_list u)) (files u).

(** The files the first [k] iterations leave, unit by unit in popping
    order. *)
Definition artifacts_upto (args : Args) (work : list WorkUnit) (k : nat)
  : list event :=
  flat_map
    (λ i, match rev work !! i with
          | Some u =>
              unit_artifacts args u (retained_before work i)
                (bool_decide (S i = length work))
          | None => []
          end)
    (seq 0 k).

(** The one line a run can print when [VERBOSE] is off. *)
Definition no_steps_message : string :=
  "No steps to include in the glossary: no glossary generated".

(** *** One unit *)

Lemma artifacts_process_files (G : Globals) (args : Args)
  (a_dir_list : list string) (files : list string) :
  artifacts (process_files G args a_dir_list files)
  = flat_map (spec_file_artifacts args a_dir_list) files.
Proof.
  rewrite process_files_flat_map.
  induction files as [|f files IH]; [done |].
  simpl. by rewrite artifacts_app, artifacts_process_file, IH.
Qed.

Lemma process_unit_artifacts (G : Globals) (args : Args) (u : WorkUnit)
  (st : state) :
  artifacts (out (process_unit G args u st))
  = artifacts (out st)
    ++ unit_artifacts args u (non_empty_dirs st)
         (negb (list_truthy (work_to_do st))).
Proof.
  unfold unit_artifacts.
  destruct (keeps u (non_empty_dirs st)) eqn:Hkeeps; simpl.
  - destruct (dry_run args) eqn:Hdry.
    + rewrite process_unit_dry_run by done. by rewrite app_nil_r.
    + rewrite process_unit_kept by done.
      rewrite !artifacts_app, artifacts_write_to_file,
        artifacts_process_files.
      by destruct (negb (list_truthy (work_to_do st))).
  - rewrite process_unit_skipped by done. by rewrite app_nil_r.
Qed.

Lemma state_at_non_empty_dirs (G : Globals) (args : Args)
  (work : list WorkUnit) (k : nat) :
  non_empty_dirs (state_at G args work k) = retained_before work k.
Proof. unfold state_at. by rewrite iterate_non_empty_dirs. Qed.

(** The iteration that follows [k] others, when there is a unit left and
    when there is none. *)
Lemma state_at_step (G : Globals) (args : Args) (work : list WorkUnit)
  (k : nat) (u : WorkUnit) :
  rev work !! k = Some u →
  state_at G args work (S k)
  = process_unit G args u
      {| work_to_do := rev (drop (S k) (rev work));
         non_empty_dirs := non_empty_dirs (state_at G args work k);
         out := out (state_at G args work k) |}.
Proof.
  intros Hk. unfold state_at. rewrite iterate_succ.
  assert (Hrev : rev (work_to_do (iterate G args k (initial work)))
                 = u :: drop (S k) (rev work)).
  { rewrite iterate_work_to_do. simpl. by apply drop_S. }
  by rewrite (loop_body_cons _ _ _ _ _ Hrev).
Qed.

Lemma state_at_done (G : Globals) (args : Args) (work : list WorkUnit)
  (k : nat) :
  rev work !! k = None →
  state_at G args work (S k) = state_at G args work k.
Proof.
  intros Hk. unfold state_at. rewrite iterate_succ.
  assert (Hrev : rev (work_to_do (iterate G args k (initial work))) = []).
  { rewrite iterate_work_to_do. simpl.
    apply drop_ge. by apply lookup_ge_None. }
  by rewrite (loop_body_nil _ _ _ Hrev).
Qed.

Lemma last_unit_test (work : list WorkUnit) (k : nat) (u : WorkUnit) :
  rev work !! k = Some u →
  negb (list_truthy (rev (drop (S k) (rev work))))
  = bool_decide (S k = length work).
Proof.
  intros Hk. apply lookup_lt_Some in Hk. rewrite length_rev in Hk.
  destruct (drop (S k) (rev work)) as [|x r] eqn:Hdrop.
  - simpl. symmetry. apply bool_decide_eq_true_2.
    apply (f_equal length) in Hdrop.
    rewrite length_drop, length_rev in Hdrop. simpl in Hdrop. lia.
  - assert (Hlen : S k < length work).
    { apply (f_equal length) in Hdrop.
      rewrite length_drop, length_rev in Hdrop. simpl in Hdrop. lia. }
    rewrite bool_decide_eq_false_2 by lia.
    simpl. by destruct (rev r ++ [x]) eqn:Happ;
      [apply app_eq_nil in Happ as [_ [=]] |].
Qed.

(** The files the loop has left after [k] iterations. *)
Lemma state_at_artifacts (G : Globals) (args : Args) (work : list WorkUnit)
  (k : nat) :
  artifacts (out (state_at G args work k)) = artifacts_upto args work k.
Proof.
  unfold artifacts_upto. induction k as [|k IH]; [done |].
  rewrite seq_S, flat_map_app. simpl. rewrite app_nil_r, <- IH.
  destruct (rev work !! k) as [u|] eqn:Hk.
  - rewrite (state_at_step _ _ _ _ _ Hk), process_unit_artifacts. simpl.
    by rewrite (last_unit_test _ _ _ Hk), state_at_non_empty_dirs.
  - rewrite (state_at_done _ _ _ _ Hk). by rewrite app_nil_r.
Qed.

Lemma process_work_effects (G : Globals) (args : Args)
  (work : list WorkUnit) :
  effects (process_work G args work)
  = out (state_at G args work (length work)) ++ glossary_pass G args.
Proof. unfold process_work. simpl. by rewrite while_loop_iterate. Qed.

Lemma process_work_retained (G : Globals) (args : Args)
  (work : list WorkUnit) :
  retained (process_work G args work)
  = non_empty_dirs (state_at G args work (length work)).
Proof. unfold process_work. simpl. by rewrite while_loop_iterate. Qed.

Lemma artifacts_glossary_pass (G G' : Globals) (args : Args) :
  artifacts (glossary_pass G args) = artifacts (glossary_pass G' args).
Proof.
  unfold glossary_pass. destruct (name_truthy _); [| done].
  destruct (dry_run args); [by rewrite !artifacts_verbose |].
  destruct (make_steps_glossary _); [| done].
  by rewrite !artifacts_app, !artifacts_verbose, !artifacts_write_to_file.
Qed.

(** *** The whole run *)

(** X10: The files a run leaves, in order: for each unit in popping order that
    is kept when its turn comes, its TOC (top-level name for the unit
    popped last, flat name otherwise) and the artifacts of its files; then
    whatever the glossary pass writes.  A dry run and a pruned unit leave
    nothing. *)
Theorem run_artifacts (G : Globals) (args : Args) (work : list WorkUnit) :
  artifacts (effects (process_work G args work))
  = artifacts_upto args work (length work)
    ++ artifacts (glossary_pass G args).
Proof.
  by rewrite process_work_effects, artifacts_app, state_at_artifacts.
Qed.

(** X11: The flags [VERBOSE] and [DRY_RUN] of [utils] change what a run prints
    and nothing else: the files written and copied, and the retained
    directories, are the same for every value of the two flags. *)
Theorem globals_only_affect_output (G G' : Globals) (args : Args)
  (work : list WorkUnit) :
  artifacts (effects (process_work G args work))
  = artifacts (effects (process_work G' args work))
  ∧ retained (process_work G args work)
    = retained (process_work G' args work).
Proof.
  split.
  - rewrite !process_work_effects, !artifacts_app, !state_at_artifacts.
    by rewrite (artifacts_glossary_pass G G').
  - by rewrite !process_work_retained, !state_at_non_empty_dirs.
Qed.

Lemma quiet_verbose (G : Globals) (message : string) :
  VERBOSE G = false → verbose G message = [].
Proof. unfold verbose. by intros ->. Qed.

Lemma quiet_process_unit (G : Globals) (args : Args) (u : WorkUnit)
  (st : state) :
  VERBOSE G = false →
  Forall (λ e, persisted e = true) (out st) →
  Forall (λ e, persisted e = true) (out (process_unit G args u st)).
Proof.
  intros Hq Hst. unfold process_unit.
  destruct (negb _); [done |]. destruct (dry_run args); [done |]. simpl.
  apply Forall_app. split; [done |]. apply Forall_app. split.
  - unfold write_to_file. rewrite quiet_verbose by done.
    by apply Forall_singleton.
  - rewrite process_files_flat_map. apply Forall_flat_map.
    apply Forall_forall. intros f _. unfold process_file.
    destruct (is_feature_file f).
    + unfold write_to_file. rewrite !quiet_verbose by done.
      by apply Forall_singleton.
    + destruct (is_rst_file f); simpl; [done |].
      rewrite quiet_verbose by done. by apply Forall_singleton.
Qed.

Lemma quiet_iterate (G : Globals) (args : Args) (k : nat) (st : state) :
  VERBOSE G = false →
  Forall (λ e, persisted e = true) (out st) →
  Forall (λ e, persisted e = true) (out (iterate G args k st)).
Proof.
  intros Hq. revert st. induction k as [|k IH]; intros st Hst; [done |].
  simpl. destruct (rev (work_to_do st)) as [|x r] eqn:Hrev.
  - by rewrite (loop_body_nil _ _ _ Hrev).
  - rewrite (loop_body_cons _ _ _ _ _ Hrev). apply IH.
    by apply quiet_process_unit.
Qed.

(** X12: With [VERBOSE] off a run prints nothing, except for the one line that
    reports a glossary without steps. *)
Theorem quiet_run_prints_one_line_at_most (G : Globals) (args : Args)
  (work : list WorkUnit) (message : string) :
  VERBOSE G = false →
  Print message ∈ effects (process_work G args work) →
  message = no_steps_message.
Proof.
  intros Hq. rewrite process_work_effects, elem_of_app. intros [Hin | Hin].
  - exfalso.
    assert (Hall : Forall (λ e, persisted e = true)
                     (out (state_at G args work (length work))))
      by (by apply quiet_iterate).
    rewrite Forall_forall in Hall. by apply Hall in Hin.
  - unfold glossary_pass in Hin. destruct (name_truthy _);
      [| by apply elem_of_nil in Hin].
    destruct (dry_run args).
    + rewrite quiet_verbose in Hin by done. by apply elem_of_nil in Hin.
    + destruct (make_steps_glossary _).
      * unfold write_to_file in Hin. rewrite !quiet_verbose in Hin by done.
        simpl in Hin. apply list_elem_of_singleton in Hin. discriminate Hin.
      * apply list_elem_of_singleton in Hin. by injection Hin as ->.
Qed.

(** *** Which directories are retained *)

Lemma kept_unit_stays (G : Globals) (args : Args) (work : list WorkUnit)
  (i : nat) (u : WorkUnit) :
  rev work !! i = Some u →
  keeps u (non_empty_dirs (state_at G args work i)) = true →
  a_dir u ∈ retained (process_work G args work).
Proof.
  intros Hi Hkeeps. rewrite process_work_retained.
  assert (Hlt : S i ≤ length work).
  { apply lookup_lt_Some in Hi. rewrite length_rev in Hi. lia. }
  replace (length work) with (S i + (length work - S i)) by lia.
  apply state_at_mono. rewrite state_at_succ, Hi.
  apply elem_of_mark. by left.
Qed.

Lemma retained_came_from_a_unit (G : Globals) (args : Args)
  (work : list WorkUnit) (k : nat) (d : string) :
  d ∈ non_empty_dirs (state_at G args work k) →
  ∃ (i : nat) (u : WorkUnit),
    rev work !! i = Some u ∧ a_dir u = d
    ∧ keeps u (non_empty_dirs (state_at G args work i)) = true.
Proof.
  induction k as [|k IH].
  - intros Hd. by apply not_elem_of_empty in Hd.
  - rewrite state_at_succ. destruct (rev work !! k) as [u|] eqn:Hk; [| done].
    rewrite elem_of_mark. intros [[Hkeeps ->] | Hd]; [| by apply IH].
    by exists k, u.
Qed.

Lemma state_at_tail (G : Globals) (args : Args)
  (before after : list WorkUnit) :
  non_empty_dirs (state_at G args (before ++ after) (length after))
  = retained (process_work G args after).
Proof.
  rewrite process_work_retained, !state_at_non_empty_dirs.
  unfold retained_before. rewrite rev_app_distr.
  rewrite <- (length_rev after) at 1. rewrite take_app_length.
  by rewrite <- (length_rev after), firstn_all.
Qed.

(** X13: A directory that has a file is retained, wherever it stands in the list
    and whatever its subdirectories are. *)
Theorem directory_with_files_is_retained (G : Globals) (args : Args)
  (work : list WorkUnit) (u : WorkUnit) :
  u ∈ work → files u ≠ [] →
  a_dir u ∈ retained (process_work G args work).
Proof.
  intros Hin Hfiles.
  assert (Hrev : u ∈ rev work) by (by apply list_elem_of_In, in_rev,
                                     list_elem_of_In in Hin).
  apply list_elem_of_lookup in Hrev as [i Hi].
  apply (kept_unit_stays G args work i u Hi).
  apply keeps_iff. by left.
Qed.

(** X14: Retention goes up the tree when children come later in the list than
    the parent (so that they are popped first): if the run over the units
    listed after a directory retains the path of one of its
    subdirectories, the run over the whole list retains the directory. *)
Theorem parent_of_retained_child_is_retained (G : Globals) (args : Args)
  (before after : list WorkUnit) (parent : WorkUnit) (subdir : string) :
  subdir ∈ subdirs parent →
  os_path_join (a_dir parent) [subdir]
    ∈ retained (process_work G args after) →
  a_dir parent ∈ retained (process_work G args (before ++ parent :: after)).
Proof.
  intros Hsub Hchild.
  apply (kept_unit_stays G args _ (length after) parent).
  - rewrite rev_app_distr. simpl. rewrite <- app_assoc.
    rewrite lookup_app_r by (by rewrite length_rev).
    by rewrite length_rev, Nat.sub_diag.
  - apply keeps_iff. right. exists subdir. split; [done |].
    replace (before ++ parent :: after) with ((before ++ [parent]) ++ after)
      by (by rewrite <- app_assoc).
    by rewrite state_at_tail.
Qed.

(** X15: A path is never retained when every unit of the list that has this path
    is without files and without subdirectories; in particular an empty
    leaf directory is not retained, and no path is that was not scanned. *)
Theorem empty_leaf_is_never_retained (G : Globals) (args : Args)
  (work : list WorkUnit) (d : string) :
  (∀ v : WorkUnit, v ∈ work → a_dir v = d → files v = [] ∧ subdirs v = []) →
  d ∉ retained (process_work G args work).
Proof.
  intros Hempty Hd. rewrite process_work_retained in Hd.
  apply retained_came_from_a_unit in Hd as (i & u & Hi & Hdir & Hkeeps).
  assert (Hin : u ∈ work).
  { apply list_elem_of_In, in_rev, list_elem_of_In.
    by apply list_elem_of_lookup_2 in Hi. }
  destruct (Hempty u Hin Hdir) as [Hf Hs].
  apply keeps_iff in Hkeeps as [Hfiles | (s & Hsub & _)]; [done |].
  rewrite Hs in Hsub. by apply elem_of_nil in Hsub.
Qed.

(** X22: The retained set of a list follows from that of its tail.  For
    the empty list nothing is retained and only the glossary pass has
    effects.  For [u :: after], [u] is popped last: its path is added to
    what the run over [after] retains exactly when [u] has a file or a
    subdirectory whose joined path the run over [after] retains. *)
Theorem retained_by_recursion (G : Globals) (args : Args) (u : WorkUnit)
  (after : list WorkUnit) :
  retained (process_work G args []) = ∅
  ∧ effects (process_work G args []) = glossary_pass G args
  ∧ retained (process_work G args (u :: after))
    = (if list_truthy (files u)
          || list_truthy
               (retained_of u (retained (process_work G args after)))
       then {[a_dir u]} ∪ retained (process_work G args after)
       else retained (process_work G args after)).
Proof.
  split; [by rewrite process_work_retained |].
  split; [by rewrite process_work_effects |].
  rewrite (process_work_retained G args (u :: after)).
  change (length (u :: after)) with (S (length after)).
  rewrite state_at_succ.
  assert (Hlook : rev (u :: after) !! length after = Some u).
  { simpl. rewrite lookup_app_r by (by rewrite length_rev).
    by rewrite length_rev, Nat.sub_diag. }
  rewrite Hlook.
  change (u :: after) with ([u] ++ after). rewrite state_at_tail.
  unfold mark, keeps, retained_of. by rewrite retained_subdirs_filter.
Qed.

End run.

(** **** The theorems at concrete inputs *)

Lemma quiet_run_prints_one_line_at_most_witness :
  no_steps_message = no_steps_message.
Proof.
  apply (quiet_run_prints_one_line_at_most (C := example_env) quiet
           (glossary_args false) example_work no_steps_message).
  - reflexivity.
  - replace (effects (process_work (C := example_env) quiet
                        (glossary_args false) example_work))
      with ([FileWrite "/out/root.A-toc.rst" "toc of root/A:feature1.feature";
             FileWrite "/out/root.A.feature1.feature-file.rst"
               "feature /src/root/A/feature1.feature";
             FileWrite "/out/gherkin.rst" "toc of root:Areadme.rst";
             Print no_steps_message])
      by (by vm_compute).
    do 3 apply list_elem_of_further. apply list_elem_of_here.
Defined.

Lemma directory_with_files_is_retained_witness :
  "/src/root/A"
  ∈ retained (process_work (C := example_env) quiet example_args example_work).
Proof.
  apply (directory_with_files_is_retained (C := example_env) quiet
           example_args example_work
           {| a_dir := "/src/root/A"; a_dir_list := ["root"; "A"];
              subdirs := []; files := ["feature1.feature"] |}).
  - apply list_elem_of_further, list_elem_of_here.
  - discriminate.
Defined.

Lemma parent_of_retained_child_is_retained_witness :
  "/src/root"
  ∈ retained
      (process_work (C := example_env) quiet example_args
         ([] ++ {| a_dir := "/src/root"; a_dir_list := ["root"];
                   subdirs := ["A"; "B"]; files := [] |}
             :: [ {| a_dir := "/src/root/A"; a_dir_list := ["root"; "A"];
                     subdirs := []; files := ["feature1.feature"] |};
                  {| a_dir := "/src/root/B"; a_dir_list := ["root"; "B"];
                     subdirs := []; files := [] |} ])).
Proof.
  apply (parent_of_retained_child_is_retained (C := example_env) quiet
           example_args []
           [ {| a_dir := "/src/root/A"; a_dir_list := ["root"; "A"];
                subdirs := []; files := ["feature1.feature"] |};
             {| a_dir := "/src/root/B"; a_dir_list := ["root"; "B"];
                subdirs := []; files := [] |} ]
           {| a_dir := "/src/root"; a_dir_list := ["root"];
              subdirs := ["A"; "B"]; files := [] |} "A").
  - apply list_elem_of_here.
  - apply (bool_decide_unpack _). by vm_compute.
Defined.

Lemma empty_leaf_is_never_retained_witness :
  "/src/root/B"
  ∉ retained (process_work (C := example_env) quiet example_args example_work).
Proof.
  apply (empty_leaf_is_never_retained (C := example_env) quiet example_args
           example_work "/src/root/B").
  intros v Hin Hdir. unfold example_work in Hin.
  repeat (apply elem_of_cons in Hin as [-> | Hin];
          [first [discriminate Hdir | by split] |]).
  by apply elem_of_nil in Hin.
Defined.

End Run.

(* ===================================================================== *)
(** ** cli.py: main *)
(* ===================================================================== *)

Module Main.
Import Utils.

(** The namespace that [parser.parse_args()] returns. *)
Record ParsedArgs := {
  gherkin_path : string;
  output_path : string;
  exclude_patterns : list string;
  maxtocdepth : Z;
  dry_run : bool;
  private : bool;
  toc_name : string;
  doc_project : option string;
  quiet : bool;
  step_glossary_name : option string;
  verbose : bool;
  version : bool
}.

(** [set_dry_run(value)] and [set_verbose(value)] of [utils.py]. *)
Definition set_dry_run (value : bool) (g : Globals) : Globals :=
  {| VERBOSE := VERBOSE g; DRY_RUN := value |}.

Definition set_verbose (value : bool) (g : Globals) : Globals :=
  {| VERBOSE := value; DRY_RUN := DRY_RUN g |}.

(** [s.split(sep)] for a one-character separator: the pieces between the
    separators, at least one piece. *)
Fixpoint split_char (sep : ascii) (s : string) : list string :=
  match s with
  | EmptyString => [EmptyString]
  | String c s' =>
      if Ascii.eqb c sep then EmptyString :: split_char sep s'
      else
        match split_char sep s' with
        | [] => [String c EmptyString]
        | piece :: pieces => String c piece :: pieces
        end
  end.

(** [s.split(os.path.sep)[-1]], with [/] for [os.path.sep]. *)
Definition last_component (s : string) : string :=
  List.last (split_char "/" s) EmptyString.

(** What [main] does beyond the effects of [process_args]: it may create
    the output directory. *)
Inductive main_event :=
| MakeDirs (path : string)
| Effect (e : event).

(** How [main] ends: it returns, or [parser.exit] or [parser.error] ends
    the program with a message. *)
Inductive ending :=
| Returned
| SystemExit (message : string)
| UsageError (message : string).

Record main_result := {
  globals : Globals;
  ended : ending;
  events : list main_event
}.

Section main.
Context {C : Cli.Collaborators}.
Variable os_path_isdir : string → bool.
Variable sphinx_display_version : string.

(** Lines 168-169: the project name that [process_args] gets. *)
Definition project_of (args : ParsedArgs) : string :=
  match doc_project args with
  | None => last_component (Cli.os_path_abspath (gherkin_path args))
  | Some project => project
  end.

(** The namespace as [process_args] receives it: [doc_project] filled in
    (lines 168-169) and [output_path] made absolute (line 174). *)
Definition args_for_process (args : ParsedArgs) : Cli.Args :=
  {| Cli.gherkin_path := gherkin_path args;
     Cli.private := private args;
     Cli.exclude_patterns := exclude_patterns args;
     Cli.maxtocdepth := maxtocdepth args;
     Cli.output_path := Cli.os_path_abspath (output_path args);
     Cli.toc_name := toc_name args;
     Cli.step_glossary_name := step_glossary_name args;
     Cli.doc_project := project_of args;
     Cli.dry_run := dry_run args |}.

(** Lines 162-166: the two module flags after [main] has looked at the
    command line. *)
Definition flags_after (g : Globals) (args : ParsedArgs) : Globals :=
  let g := if dry_run args then set_dry_run true g else g in
  if verbose args then set_verbose true g else g.

(** Lines 175-178. *)
Definition make_output_dir (g : Globals) (args : ParsedArgs)
  : list main_event :=
  let output_path := Cli.os_path_abspath (output_path args) in
  if negb (os_path_isdir output_path) then
    if negb (dry_run args) then
      (Effect <$> Utils.verbose g ("creating directory: " +:+ output_path))
      ++ [MakeDirs output_path]
    else []
  else [].

(** [main()], from the parsed command line on (lines 157-180).  [g] holds
    the module flags when [main] starts. *)
Definition main (g : Globals) (args : ParsedArgs) : main_result :=
  if version args then
    {| globals := g;
       ended := SystemExit
                  ("Sphinx (sphinx-gherkindoc) " +:+ sphinx_display_version);
       events := [] |}
  else
    let g := flags_after g args in
    if negb (os_path_isdir (gherkin_path args)) then
      {| globals := g;
         ended := UsageError (gherkin_path args +:+ " is not a directory.");
         events := [] |}
    else
      {| globals := g;
         ended := Returned;
         events :=
           make_output_dir g args
           ++ (Effect <$> Cli.effects
                            (Cli.process_args g (args_for_process args))) |}.

(** A file or directory made on disk. *)
Definition changes_disk (e : main_event) : bool :=
  match e with
  | MakeDirs _ => true
  | Effect e => Cli.persisted e
  end.

(** *** Properties of [main] *)

Lemma has_char_split (sep : ascii) (s piece : string) :
  piece ∈ split_char sep s → Text.has_char sep piece = false.
Proof.
  revert piece. induction s as [|c s IH]; intros piece Hin; simpl in Hin.
  - apply list_elem_of_singleton in Hin. by subst.
  - destruct (Ascii.eqb c sep) eqn:Hc.
    + apply elem_of_cons in Hin as [-> | Hin]; [done | by apply IH].
    + destruct (split_char sep s) as [|p ps] eqn:Hsplit.
      * apply list_elem_of_singleton in Hin. subst. simpl.
        by rewrite Hc.
      * apply elem_of_cons in Hin as [-> | Hin].
        -- simpl. rewrite Hc. simpl. apply IH. apply list_elem_of_here.
        -- apply IH. by apply list_elem_of_further.
Qed.

Lemma split_char_not_nil (sep : ascii) (s : string) : split_char sep s ≠ [].
Proof.
  destruct s as [|c s]; [done |]. simpl.
  destruct (Ascii.eqb c sep); [done |]. by destruct (split_char sep s).
Qed.

Lemma last_elem_of {A} (l : list A) (d : A) : l ≠ [] → List.last l d ∈ l.
Proof.
  induction l as [|x l IH]; [done |]. intros _.
  destruct l as [|y l]; [apply list_elem_of_here |].
  apply list_elem_of_further. by apply IH.
Qed.

Lemma split_char_singleton (sep : ascii) (s piece : string) :
  split_char sep s = [piece] → s = piece.
Proof.
  revert piece. induction s as [|c s IH]; intros piece Hsplit;
    simpl in Hsplit.
  - by injection Hsplit as <-.
  - destruct (Ascii.eqb c sep).
    + injection Hsplit as _ Hnil. by apply split_char_not_nil in Hnil.
    + destruct (split_char sep s) as [|q qs] eqn:Hq;
        [by apply split_char_not_nil in Hq |].
      injection Hsplit as <- ->. f_equal. by apply IH.
Qed.

Lemma last_cons_cons {A} (x y : A) (l : list A) (d : A) :
  List.last (x :: y :: l) d = List.last (y :: l) d.
Proof. reflexivity. Qed.

Lemma split_char_no_sep (sep : ascii) (s : string) :
  Text.has_char sep s = false → split_char sep s = [s].
Proof.
  induction s as [|c s IH]; [done |]. simpl.
  intros [Hc Hs]%orb_false_iff. rewrite Hc. by rewrite (IH Hs).
Qed.

(** The last piece is the whole text, or what stands behind its last
    separator. *)
Lemma last_split_suffix (sep : ascii) (s : string) :
  s = List.last (split_char sep s) EmptyString
  ∨ ∃ before : string,
      s = before +:+ String sep (List.last (split_char sep s) EmptyString).
Proof.
  induction s as [|c s IH]; [by left |]. simpl.
  destruct (split_char sep s) as [|q qs] eqn:Hq;
    [by apply split_char_not_nil in Hq |].
  destruct (Ascii.eqb_spec c sep) as [-> | Hne].
  - rewrite last_cons_cons. right. destruct IH as [IH | [before IH]].
    + exists EmptyString. by rewrite append_Empty, <- IH.
    + exists (String sep before). by rewrite append_String, <- IH.
  - destruct qs as [|q' qs].
    + left. apply split_char_singleton in Hq. by subst.
    + rewrite last_cons_cons. rewrite last_cons_cons in IH.
      right. destruct IH as [IH | [before IH]].
      * exfalso.
        assert (Hno : Text.has_char sep s = false).
        { rewrite IH. apply (has_char_split sep s). rewrite Hq.
          apply list_elem_of_further. by apply last_elem_of. }
        apply split_char_no_sep in Hno. by rewrite Hq in Hno.
      * exists (String c before). by rewrite append_String, <- IH.
Qed.

(** X16: Without [--doc-project] the project name is what follows the last [/]
    of the absolute path of [gherkin_path] (the whole path if it has no
    [/]), and so holds no [/]; with the option, it is the name given. *)
Theorem default_project_is_last_component (args : ParsedArgs) :
  (doc_project args = None →
   Text.has_char "/" (Cli.doc_project (args_for_process args)) = false
   ∧ (Cli.os_path_abspath (gherkin_path args)
      = Cli.doc_project (args_for_process args)
      ∨ ∃ before : string,
          Cli.os_path_abspath (gherkin_path args)
          = before +:+ "/" +:+ Cli.doc_project (args_for_process args)))
  ∧ (∀ project : string,
       doc_project args = Some project →
       Cli.doc_project (args_for_process args) = project).
Proof.
  split.
  - intros Hnone. simpl. unfold project_of. rewrite Hnone. split.
    + apply (has_char_split "/" (Cli.os_path_abspath (gherkin_path args))).
      apply last_elem_of, split_char_not_nil.
    + apply last_split_suffix.
  - intros project Hsome. simpl. unfold project_of. by rewrite Hsome.
Qed.

Lemma flags_after_dry_run (g : Globals) (args : ParsedArgs) :
  dry_run args = true → DRY_RUN (flags_after g args) = true.
Proof.
  intros Hdry. unfold flags_after. rewrite Hdry.
  by destruct (verbose args).
Qed.

Lemma make_output_dir_dry_run (g : Globals) (args : ParsedArgs) :
  dry_run args = true → make_output_dir g args = [].
Proof.
  intros Hdry. unfold make_output_dir. rewrite Hdry.
  by destruct (negb (os_path_isdir _)).
Qed.

Lemma process_args_dry_run (g : Globals) (a : Cli.Args) :
  Cli.dry_run a = true →
  Cli.effects (Cli.process_args g a)
  = if Cli.name_truthy (Cli.step_glossary_name a)
    then Utils.verbose g "No glossary generated"
    else [].
Proof.
  intros Hdry. unfold Cli.process_args.
  rewrite Run.process_work_effects. unfold Engine.state_at.
  rewrite Engine.iterate_dry_run by exact Hdry.
  unfold Cli.glossary_pass. rewrite Hdry.
  by destruct (Cli.name_truthy _).
Qed.

Lemma no_makedirs_in_effects (evs : list event) (path : string) :
  MakeDirs path ∉ (Effect <$> evs).
Proof.
  intros Hin. apply list_elem_of_fmap in Hin as (e & Heq & _). discriminate Heq.
Qed.

(** X17: A dry run through [main] (valid [gherkin_path], no [--version]) touches
    nothing on disk: it creates no output directory even when there is
    none, writes and copies no file, and sets the flag [DRY_RUN].  All it
    can do is print one line, "dry-run: No glossary generated", and it does
    so exactly when a glossary name is given and [VERBOSE] is on. *)
Theorem dry_run_main_touches_nothing (g : Globals) (args : ParsedArgs) :
  version args = false → dry_run args = true →
  os_path_isdir (gherkin_path args) = true →
  ended (main g args) = Returned
  ∧ DRY_RUN (globals (main g args)) = true
  ∧ events (main g args)
    = (if Cli.name_truthy (step_glossary_name args)
          && VERBOSE (globals (main g args))
       then [Effect (Print "dry-run: No glossary generated")]
       else [])
  ∧ List.filter changes_disk (events (main g args)) = [].
Proof.
  intros Hversion Hdry Hisdir.
  assert (Hev : events (main g args)
    = (if Cli.name_truthy (step_glossary_name args)
          && VERBOSE (globals (main g args))
       then [Effect (Print "dry-run: No glossary generated")]
       else [])).
  { unfold main. rewrite Hversion, Hisdir. cbn [negb events globals].
    rewrite (make_output_dir_dry_run _ _ Hdry).
    rewrite process_args_dry_run by exact Hdry.
    cbn [Cli.step_glossary_name args_for_process app].
    destruct (Cli.name_truthy (step_glossary_name args)); [| done].
    unfold Utils.verbose. rewrite (flags_after_dry_run g args Hdry).
    by destruct (VERBOSE (flags_after g args)). }
  split; [| split; [| split; [exact Hev |]]].
  - unfold main. by rewrite Hversion, Hisdir.
  - unfold main. rewrite Hversion, Hisdir. simpl.
    by apply flags_after_dry_run.
  - rewrite Hev. by destruct (_ && _).
Qed.

(** X18: In a run that is not a dry run (valid [gherkin_path], no [--version]),
    [main] creates the output directory exactly when the absolute output
    path is not a directory yet, once, and before any file is written or
    copied. *)
Theorem output_dir_is_made_first (g : Globals) (args : ParsedArgs) :
  version args = false → dry_run args = false →
  os_path_isdir (gherkin_path args) = true →
  (os_path_isdir (Cli.os_path_abspath (output_path args)) = true →
   ∀ path : string, MakeDirs path ∉ events (main g args))
  ∧ (os_path_isdir (Cli.os_path_abspath (output_path args)) = false →
     ∃ before after : list main_event,
       events (main g args)
       = before ++ MakeDirs (Cli.os_path_abspath (output_path args)) :: after
       ∧ Forall (λ e, changes_disk e = false) before
       ∧ ∀ path : string, MakeDirs path ∉ after).
Proof.
  intros Hversion Hwet Hisdir.
  unfold main. rewrite Hversion, Hisdir. simpl.
  unfold make_output_dir. rewrite Hwet. simpl. split.
  - intros ->. simpl. intros path. apply no_makedirs_in_effects.
  - intros ->. simpl.
    exists (Effect <$> Utils.verbose (flags_after g args)
                         ("creating directory: "
                          +:+ Cli.os_path_abspath (output_path args))).
    eexists. split; [by rewrite <- app_assoc |]. split.
    + unfold Utils.verbose. destruct (negb _); [done |].
      by apply Forall_singleton.
    + intros path. apply no_makedirs_in_effects.
Qed.

End main.

(** **** The theorems at concrete inputs *)

Definition example_parsed (flag : bool) : ParsedArgs :=
  {| gherkin_path := "/src/root";
     output_path := "/out";
     exclude_patterns := [];
     maxtocdepth := 4;
     dry_run := flag;
     private := false;
     toc_name := "gherkin";
     doc_project := None;
     quiet := false;
     step_glossary_name := Some "glossary";
     verbose := true;
     version := false |}.

(** A file system in which only the source directory exists. *)
Definition only_source_exists (path : string) : bool :=
  String.eqb path "/src/root".

Definition fresh : Globals := {| VERBOSE := false; DRY_RUN := false |}.

Lemma dry_run_main_touches_nothing_witness :
  events (main (C := Cli.example_env) only_source_exists "7.0"
            fresh (example_parsed true))
  = [Effect (Print "dry-run: No glossary generated")].
Proof.
  apply (dry_run_main_touches_nothing (C := Cli.example_env)
           only_source_exists "7.0" fresh (example_parsed true));
    reflexivity.
Defined.

Lemma output_dir_is_made_first_witness :
  ∃ before after : list main_event,
    events (main (C := Cli.example_env) only_source_exists "7.0"
              fresh (example_parsed false))
    = before ++ MakeDirs "/out" :: after
    ∧ Forall (λ e, changes_disk e = false) before
    ∧ ∀ path : string, MakeDirs path ∉ after.
Proof.
  apply (output_dir_is_made_first (C := Cli.example_env)
           only_source_exists "7.0" fresh (example_parsed false));
    reflexivity.
Defined.

End Main.

(* ===================================================================== *)
(** ** utils.py: more on flat names *)
(* ===================================================================== *)

Module FlatNames.
Import Utils.

Lemma has_char_app (c : ascii) (s t : string) :
  Text.has_char c (s +:+ t) = Text.has_char c s || Text.has_char c t.
Proof.
  induction s as [|d s IH]; rewrite ?append_Empty, ?append_String; simpl;
    [done |].
  rewrite IH. by rewrite orb_assoc.
Qed.

Lemma has_char_join (c : ascii) (l : list string) :
  Text.has_char c "." = false →
  forallb (λ s, negb (Text.has_char c s)) l = true →
  Text.has_char c (join "." l) = false.
Proof.
  intros Hdot. induction l as [|x l IH]; [done |].
  simpl forallb. intros [Hx Hl]%andb_true_iff. apply negb_true_iff in Hx.
  destruct l as [|y l]; [done |].
  change (join "." (x :: y :: l)) with (x +:+ "." +:+ join "." (y :: l)).
  rewrite !has_char_app, Hx, Hdot. simpl. by apply IH.
Qed.

(** X19: The name of a TOC and the name of a converted file never coincide when
    they are made with the same extension: whatever the two paths are, with
    dots in them or not, the first ends in ["-toc"] and the second in
    ["-file"] before the extension. *)
Theorem toc_and_file_names_differ (p1 p2 : list string)
  (root1 root2 : option string) (ext : string) :
  make_flat_name p1 root1 true (Some ext)
  ≠ make_flat_name p2 root2 false (Some ext).
Proof.
  unfold make_flat_name. intros Heq.
  apply append_inv_tail in Heq. by apply discriminators_differ in Heq.
Qed.

(** X20: Without an extension (the names given to copied files) two paths get
    the same name only if they are the same path, provided the paths are
    not empty and no segment holds a ['.']; the [is_dir] flags do not
    matter. *)
Theorem names_without_ext_determine_path (p1 p2 : list string)
  (d1 d2 : bool) :
  segments_ok p1 = true → segments_ok p2 = true →
  make_flat_name p1 None d1 None = make_flat_name p2 None d2 None →
  p1 = p2.
Proof.
  unfold segments_ok. intros [N1 S1]%andb_true_iff [N2 S2]%andb_true_iff.
  apply negb_true_iff, bool_decide_eq_false in N1.
  apply negb_true_iff, bool_decide_eq_false in N2.
  unfold make_flat_name. by apply join_inj.
Qed.

Lemma names_without_ext_determine_path_witness :
  ["a"; "b"] = ["a"; "b"].
Proof.
  apply (names_without_ext_determine_path ["a"; "b"] ["a"; "b"] true false);
    reflexivity.
Defined.

(** X21: A flat name is the name of a file directly in the output directory:
    when no segment and not the extension holds a [/], the name holds
    none. *)
Theorem flat_name_has_no_slash (path_list : list string)
  (filename_root : option string) (is_dir : bool) (ext : option string) :
  forallb (λ s, negb (Text.has_char "/" s)) path_list = true →
  Text.has_char "/" (default EmptyString filename_root) = false →
  Text.has_char "/" (default EmptyString ext) = false →
  Text.has_char "/" (make_flat_name path_list filename_root is_dir ext)
  = false.
Proof.
  intros Hsegs Hroot Hext. unfold make_flat_name.
  assert (Hjoin : Text.has_char "/"
            (join "." match filename_root with
                      | Some root => path_list ++ [root]
                      | None => path_list
                      end) = false).
  { apply has_char_join; [done |]. destruct filename_root as [root|];
      [| done].
    rewrite forallb_app, Hsegs. simpl. simpl in Hroot. by rewrite Hroot. }
  destruct ext as [e|]; [| done].
  rewrite !has_char_app, Hjoin. simpl in Hext. rewrite Hext.
  by destruct is_dir.
Qed.

Lemma flat_name_has_no_slash_witness :
  Text.has_char "/"
    (make_flat_name ["root"; "A"] (Some "feature1") false (Some ".rst"))
  = false.
Proof.
  apply (flat_name_has_no_slash ["root"; "A"] (Some "feature1") false
           (Some ".rst")); reflexivity.
Defined.

End FlatNames.

(* ===================================================================== *)
(** ** cli.py: the files of a retained directory *)
(* ===================================================================== *)

Module Dispatch.
Import Utils Cli Engine Run.

Section run.
Context {C : Collaborators}.






End run.

(** **** At concrete inputs *)



End Dispatch.
